(** * Terminal environment utilities of the workbench: a shallow embedding

    The embedded functions are those of the terminal environment module
    ([findExecutable], [createTerminalEnvironment], [mergeEnvironments],
    [addTerminalEnvironmentKeys], [mergeNonNullKeys],
    [resolveConfigurationVariables], [shouldSetLangEnvVariable],
    [getLangEnvVariable], [getCwd], [_resolveCwd], [_sanitizeCwd]).

    Modelling choices, in one place:
    - a JavaScript string is a [string] (a sequence of 8-bit characters);
      the case mappings of the runtime are an interface ([StringCase]);
    - a plain object used as a map is the association list of its own
      properties in enumeration order ([Obj]), with [Object.prototype] for
      its prototype; objects live in a store ([Heap]) and are passed by
      reference ([ref]), so that in-place mutation and aliasing are
      visible;
    - effects (the existence probe, the store, the log sink) are threaded
      by one state monad with an exception channel ([M]); [try]/[catch] is
      [try_catch];
    - the imported modules that are not part of the file ([path], the
      platform constants, [process.cwd]) are interfaces. *)

From Stdlib Require Import Ascii Bool Arith NArith Lia.
From Stdlib Require String.
From stdpp Require Import base list strings.

(* ================================================================== *)
(** ** Strings *)

Module Str.

(** [s.split(sep)] for a separator of one character: never empty. *)
Fixpoint split (sep : ascii) (s : string) : list string :=
  match s with
  | EmptyString => [EmptyString]
  | String c s' =>
      if Ascii.eqb c sep then EmptyString :: split sep s'
      else match split sep s' with
           | [] => [String c EmptyString]
           | p :: ps => String c p :: ps
           end
  end.

(** [parts.join(sep)]. *)
Definition join (sep : string) (parts : list string) : string :=
  String.concat sep parts.

(** [s.endsWith(suffix)], what [s.search(/suffix$/)] tests for a literal. *)
Fixpoint endsWith (suffix s : string) : bool :=
  String.eqb s suffix
  || match s with
     | EmptyString => false
     | String _ s' => endsWith suffix s'
     end.

(** [s[i]]: [None] is [undefined]. *)
Definition at_ (s : string) (i : nat) : option ascii := String.get i s.

(** [s[i]] as the string of one character it is, when [i] is in range. *)
Definition charAt (s : string) (i : nat) : string :=
  match String.get i s with
  | Some c => String c EmptyString
  | None => EmptyString
  end.

(** [s.substr(i)]. *)
Fixpoint substr (i : nat) (s : string) : string :=
  match i, s with
  | O, _ => s
  | S i', String _ s' => substr i' s'
  | S _, EmptyString => EmptyString
  end.

(** Truthiness of a string: only the empty string is falsy. *)
Definition truthy (s : string) : bool := negb (String.eqb s "").

(** What follows [prefix] in [s], when [s] starts with it. *)
Fixpoint stripPrefix (prefix s : string) : option string :=
  match prefix, s with
  | EmptyString, _ => Some s
  | String a prefix', String b s' =>
      if Ascii.eqb a b then stripPrefix prefix' s' else None
  | String _ _, EmptyString => None
  end.

End Str.

(** The case mappings of the runtime ([String.prototype.toUpperCase] and
    [toLowerCase]); they may change the length of a string. *)
Class StringCase := {
  toUpperCase : string -> string;
  toLowerCase : string -> string;
}.

(** The ASCII case mappings, an instance used to run the definitions. *)
Module AsciiCase.
Definition upper_char (c : ascii) : ascii :=
  let n := nat_of_ascii c in
  if (97 <=? n) && (n <=? 122) then ascii_of_nat (n - 32) else c.
Definition lower_char (c : ascii) : ascii :=
  let n := nat_of_ascii c in
  if (65 <=? n) && (n <=? 90) then ascii_of_nat (n + 32) else c.
Fixpoint map_string (f : ascii -> ascii) (s : string) : string :=
  match s with
  | EmptyString => EmptyString
  | String c s' => String (f c) (map_string f s')
  end.
Definition instance : StringCase :=
  {| toUpperCase := map_string upper_char;
     toLowerCase := map_string lower_char |}.
End AsciiCase.

(* ================================================================== *)
(** ** Effects: state with an exception channel *)

(** What a [throw] carries. *)
Inductive Exn : Type := Error (message : string).

Inductive Outcome (A : Type) : Type :=
| Returned (a : A)
| Thrown (e : Exn).
Arguments Returned {A} a.
Arguments Thrown {A} e.

Definition M (St A : Type) : Type := St -> Outcome A * St.

Definition ret {St A} (a : A) : M St A := fun s => (Returned a, s).

Definition bind {St A B} (c : M St A) (k : A -> M St B) : M St B :=
  fun s =>
    match c s with
    | (Returned a, s') => k a s'
    | (Thrown e, s') => (Thrown e, s')
    end.

Definition throw {St A} (e : Exn) : M St A := fun s => (Thrown e, s).

(** [try { body } catch (e) { handler e }]. *)
Definition try_catch {St A} (body : M St A) (handler : Exn -> M St A) : M St A :=
  fun s =>
    match body s with
    | (Returned a, s') => (Returned a, s')
    | (Thrown e, s') => handler e s'
    end.

Definition gets {St A} (f : St -> A) : M St A := fun s => (Returned (f s), s).
Definition modify {St} (f : St -> St) : M St unit := fun s => (Returned tt, f s).

Declare Scope monad_scope.
Delimit Scope monad_scope with monad.
Notation "'do' x <- c ; k" := (bind c (fun x => k))
  (at level 10, x name, c at level 100, k at level 200, only parsing)
  : monad_scope.
Open Scope monad_scope.

(** [for (const x of l) { body x }], and [l.forEach(body)]. *)
Fixpoint forEach {St A} (l : list A) (body : A -> M St unit) : M St unit :=
  match l with
  | [] => ret tt
  | x :: l' => do _ <- body x ; forEach l' body
  end.

(** A function of the environment that may throw, such as a
    [VariableResolver]; it has no state of its own. *)
Definition call {St A B} (f : A -> Exn + B) (a : A) : M St B :=
  match f a with
  | inr b => ret b
  | inl e => throw e
  end.

(* ================================================================== *)
(** ** Digits *)

(** [\d]: one of the ten ASCII digits. *)
Definition isDigit (c : ascii) : bool :=
  let n := nat_of_ascii c in (48 <=? n) && (n <=? 57).

(** Every character of the string is a digit. *)
Fixpoint all_digits (s : string) : bool :=
  match s with
  | EmptyString => true
  | String c s' => isDigit c && all_digits s'
  end.

(** [parseInt] of a string of digits: the integer they denote in base
    ten (a number of the program holds it exactly below 2^53). *)
Fixpoint parseInt_digits (acc : N) (s : string) : N :=
  match s with
  | EmptyString => acc
  | String c s' => parseInt_digits (10 * acc + (N_of_ascii c - 48)) s'
  end.

Definition parseInt (s : string) : N := parseInt_digits 0 s.

(* ================================================================== *)
(** ** Objects used as maps, and the store *)

(** A value of an environment mapping: [string | null | undefined]. *)
Inductive Value : Type :=
| VString (s : string)
| VNull
| VUndefined.

Definition isString (v : Value) : bool :=
  match v with VString _ => true | _ => false end.

(** Truthiness: [null], [undefined] and the empty string are falsy. *)
Definition truthy (v : Value) : bool :=
  match v with VString s => Str.truthy s | _ => false end.

(** An object used as a map: its own properties in enumeration order,
    the array indices first, in ascending order, then the other names in
    the order in which they were added. The prototype of every object is
    [Object.prototype]: of what an object inherits from it, the accessor
    [__proto__] matters to an assignment ([Object.set]) and the names to
    the [in] of [getLangEnvVariable] ([Object_prototype]). *)
Abbreviation Obj := (list (string * Value)).

Module Object.

(** [Object.keys(o)], also the order of [for (k in o)]. *)
Definition keys (o : Obj) : list string := map fst o.

(** [o[k]] for a name that [o] has as an own property or that
    [Object.prototype] does not have either, when it reads as
    [undefined]; such are the reads of this module, of a name that
    [Object.keys] or [for ... in] gave, and of [LANG]. *)
Fixpoint get (o : Obj) (k : string) : Value :=
  match o with
  | [] => VUndefined
  | (k', v) :: o' => if String.eqb k' k then v else get o' k
  end.

(** [k] is an own property of [o]. *)
Fixpoint has (o : Obj) (k : string) : bool :=
  match o with
  | [] => false
  | (k', _) :: o' => String.eqb k' k || has o' k
  end.

(** The array index a name is, if it is one: the decimal numeral,
    without leading zeros, of an integer below 2^32 - 1. *)
Definition index (k : string) : option N :=
  match k with
  | EmptyString => None
  | String c _ =>
      if all_digits k && (String.eqb k "0" || negb (Ascii.eqb c "0")) then
        let n := parseInt k in
        if (n <=? 4294967294)%N then Some n else None
      else None
  end.



(** [o[k] = v] for an own property [k]: it keeps its place. *)
Fixpoint update (o : Obj) (k : string) (v : Value) : Obj :=
  match o with
  | [] => []
  | (k', v') :: o' =>
      if String.eqb k' k then (k', v) :: o' else (k', v') :: update o' k v
  end.

(** A new property [k], the array index [n]: it goes after the smaller
    array indices. *)
Fixpoint insert (o : Obj) (n : N) (k : string) (v : Value) : Obj :=
  match o with
  | [] => [(k, v)]
  | (k', v') :: o' =>
      match index k' with
      | Some n' =>
          if (n' <? n)%N then (k', v') :: insert o' n k v else (k, v) :: o
      | None => (k, v) :: o
      end
  end.

(** [o[k] = v], for a value of a mapping. An own property is updated
    where it is. A name that is not an own property is looked up in
    [Object.prototype]: [__proto__] is an accessor there, whose setter
    stores nothing (a string and [undefined] it ignores; [null], which no
    assignment of this module has for a value, would take the prototype
    away); every other name becomes a new own property, an array index
    among the array indices and any other name last. *)
Definition set (o : Obj) (k : string) (v : Value) : Obj :=
  if has o k then update o k v
  else if String.eqb k "__proto__" then o
  else
    match index k with
    | Some n => insert o n k v
    | None => o ++ [(k, v)]
    end.

(** [delete o[k]]. *)
Definition delete (o : Obj) (k : string) : Obj :=
  List.filter (fun kv => negb (String.eqb kv.1 k)) o.

(** No property occurs twice. *)
Definition wf (o : Obj) : Prop := NoDup (keys o).


End Object.

(* ================================================================== *)
(** ** The imported modules *)

Inductive OperatingSystem : Type := Windows | Macintosh | Linux.

Definition OperatingSystem_eqb (a b : OperatingSystem) : bool :=
  match a, b with
  | Windows, Windows | Macintosh, Macintosh | Linux, Linux => true
  | _, _ => false
  end.

(** The constants of the platform module. *)
Class Platform := {
  isWindows : bool;
  OS : OperatingSystem;
  locale : option string;
}.

(** The [path] module. *)
Module path.
Class Interface := {
  isAbsolute : string -> bool;
  dirname : string -> string;
  join : list string -> string;
  delimiter : ascii;
}.
End path.

(** The [process] module. *)
Module process.
Class Interface := {
  cwd : string;
}.
End process.

(** Modelled from the spec: [getCaseInsensitive] of the objects module,
    which the lookup of the [PATH] entry goes through ("looked up
    case-insensitively"): the value of the first property whose name equals
    the requested one up to case. *)
Fixpoint getCaseInsensitive `{StringCase} (target : Obj) (key : string) : Value :=
  match target with
  | [] => VUndefined
  | (k, v) :: target' =>
      if String.eqb (toLowerCase k) (toLowerCase key) then v
      else getCaseInsensitive target' key
  end.

(* ================================================================== *)
(** ** findExecutable *)

Section FindExecutable.
Context `{StringCase} `{Platform} `{path.Interface} `{process.Interface}.

(** The state the injected [exists] works on, and [exists] itself (a
    reserved word here, hence the underscore). *)
Context {FS : Type}.
Variable exists_ : string -> M FS bool.

(** The [for (let pathEntry of paths)] loop; [Some] is a [return] from
    inside the loop, [None] is falling out of it. *)
Fixpoint findExecutable_loop (command cwd : string) (paths : list string)
  : M FS (option string) :=
  match paths with
  | [] => ret None
  | pathEntry :: paths' =>
      let fullPath :=
        if path.isAbsolute pathEntry
        then path.join [pathEntry; command]
        else path.join [cwd; pathEntry; command] in
      do found <- exists_ fullPath ;
      if found then ret (Some fullPath)
      else if isWindows then
        let withExtension := fullPath +:+ ".com" in
        do found <- exists_ withExtension ;
        if found then ret (Some withExtension)
        else
          let withExtension := fullPath +:+ ".exe" in
          do found <- exists_ withExtension ;
          if found then ret (Some withExtension)
          else findExecutable_loop command cwd paths'
      else findExecutable_loop command cwd paths'
  end.

(** [return await exists(p) ? p : undefined]. *)
Definition return_if_exists (p : string) : M FS (option string) :=
  do found <- exists_ p ;
  ret (if found then Some p else None).

Definition findExecutable (command : string) (cwd : option string)
    (paths : option (list string)) (env : Obj) : M FS (option string) :=
  if path.isAbsolute command then return_if_exists command
  else
    let cwd := match cwd with Some c => c | None => process.cwd end in
    let dir := path.dirname command in
    if negb (String.eqb dir ".") then
      let fullPath := path.join [cwd; command] in
      return_if_exists fullPath
    else
      let envPath := getCaseInsensitive env "PATH" in
      let paths :=
        match paths, envPath with
        | None, VString envPath => Some (Str.split path.delimiter envPath)
        | _, _ => paths
        end in
      match paths with
      | None | Some [] =>
          let fullPath := path.join [cwd; command] in
          return_if_exists fullPath
      | Some paths =>
          do found <- findExecutable_loop command cwd paths ;
          match found with
          | Some fullPath => ret (Some fullPath)
          | None =>
              let fullPath := path.join [cwd; command] in
              return_if_exists fullPath
          end
      end.

End FindExecutable.

(* ================================================================== *)
(** ** The store of objects *)

(** A reference to an object of the store. *)
Abbreviation ref := nat.

(** The store: the objects allocated so far; a reference is an index. *)
Abbreviation Heap := (list Obj).

Module Heap.

(** An object literal: a new object, at a reference not used before. *)
Definition alloc (o : Obj) : M Heap ref :=
  fun h => (Returned (length h), h ++ [o]).

(** The object behind a reference; a reference to nothing, which the
    program cannot make, reads as the empty object. *)
Definition read (r : ref) : M Heap Obj := gets (fun h => default [] (h !! r)).

(** In-place update of the object behind a reference. *)
Definition write (r : ref) (o : Obj) : M Heap unit := modify (fun h => <[r := o]> h).

End Heap.

(** [Object.keys(o)] and the enumeration of [for (k in o)]: the names at
    the time the loop starts. A loop of this module that enumerates an
    object with [for ... in] never adds a property to that same object, and
    a property deleted before its turn reads as [undefined], which every
    such loop skips. *)
Definition Object_keys (o : ref) : M Heap (list string) :=
  do obj <- Heap.read o ; ret (Object.keys obj).

(** [o[k]]. *)
Definition get_prop (o : ref) (k : string) : M Heap Value :=
  do obj <- Heap.read o ; ret (Object.get obj k).

(** [o[k] = v]. *)
Definition set_prop (o : ref) (k : string) (v : Value) : M Heap unit :=
  do obj <- Heap.read o ; Heap.write o (Object.set obj k v).

(** [delete o[k]]. *)
Definition delete_prop (o : ref) (k : string) : M Heap unit :=
  do obj <- Heap.read o ; Heap.write o (Object.delete obj k).

(** [{ ...o }]: a new object with the own properties of [o], if any. *)
Definition spread (o : option ref) : M Heap ref :=
  match o with
  | Some o => do obj <- Heap.read o ; Heap.alloc obj
  | None => Heap.alloc []
  end.

(* ================================================================== *)
(** ** Locale *)

Inductive DetectLocale : Type := Auto | Off | On.

(** A character that [.] of a regular expression does not match; U+2028
    and U+2029 lie outside the 8-bit characters of the model. *)
Definition isLineTerminator (c : ascii) : bool :=
  Ascii.eqb c "010" || Ascii.eqb c "013".

(** [lang.search(/\.euc.+/) !== -1]: somewhere in [lang], [.euc] followed
    by at least one character matched by [.]. *)
Definition euc_here (lang : string) : bool :=
  match Str.stripPrefix ".euc" lang with
  | Some (String c _) => negb (isLineTerminator c)
  | _ => false
  end.

Fixpoint search_euc (lang : string) : bool :=
  euc_here lang
  || match lang with
     | EmptyString => false
     | String _ lang' => search_euc lang'
     end.

(** The table of the default variant of a language. *)
Definition languageVariants : list (string * string) :=
  [ ("af", "ZA"); ("am", "ET"); ("be", "BY"); ("bg", "BG"); ("ca", "ES");
    ("cs", "CZ"); ("da", "DK"); ("de", "DE"); ("el", "GR"); ("en", "US");
    ("es", "ES"); ("et", "EE"); ("eu", "ES"); ("fi", "FI"); ("fr", "FR");
    ("he", "IL"); ("hr", "HR"); ("hu", "HU"); ("hy", "AM"); ("is", "IS");
    ("it", "IT"); ("ja", "JP"); ("kk", "KZ"); ("ko", "KR"); ("lt", "LT");
    ("nl", "NL"); ("no", "NO"); ("pl", "PL"); ("pt", "BR"); ("ro", "RO");
    ("ru", "RU"); ("sk", "SK"); ("sl", "SI"); ("sr", "YU"); ("sv", "SE");
    ("tr", "TR"); ("uk", "UA"); ("zh", "CN") ].

(** What the table, an object literal, inherits from [Object.prototype]:
    the names, each with the string that [join] makes of the value found
    under it, which for a function is its source text as the engine of the
    workbench (V8) prints it, and for the prototype, found under
    [__proto__], is [[object Object]]. *)
Definition Object_prototype : list (string * string) :=
  [ ("constructor", "function Object() { [native code] }");
    ("__defineGetter__", "function __defineGetter__() { [native code] }");
    ("__defineSetter__", "function __defineSetter__() { [native code] }");
    ("hasOwnProperty", "function hasOwnProperty() { [native code] }");
    ("__lookupGetter__", "function __lookupGetter__() { [native code] }");
    ("__lookupSetter__", "function __lookupSetter__() { [native code] }");
    ("isPrototypeOf", "function isPrototypeOf() { [native code] }");
    ("propertyIsEnumerable", "function propertyIsEnumerable() { [native code] }");
    ("toString", "function toString() { [native code] }");
    ("valueOf", "function valueOf() { [native code] }");
    ("__proto__", "[object Object]");
    ("toLocaleString", "function toLocaleString() { [native code] }") ].

(** [table[k]] guarded by [k in table], for the properties listed in
    [table]: the first entry under the name. *)
Fixpoint languageVariant (table : list (string * string)) (k : string)
  : option string :=
  match table with
  | [] => None
  | (k', v) :: table' => if String.eqb k' k then Some v else languageVariant table' k
  end.

(** [languageVariants[k]] guarded by [k in languageVariants]: [in] finds
    the own properties of the table and, behind them, the properties the
    table inherits. *)
Definition languageVariants_in (k : string) : option string :=
  languageVariant (languageVariants ++ Object_prototype) k.

Section Locale.
Context `{StringCase}.

Definition getLangEnvVariable (locale : option string) : string :=
  let parts :=
    match locale with
    | Some locale => if Str.truthy locale then Str.split "-" locale else []
    | None => []
    end in
  let n := length parts in
  if n =? 0 then
    (* Fallback to en_US if the locale is unknown *)
    "en_US.UTF-8"
  else
    let parts :=
      if n =? 1 then
        match parts !! 0 ≫= languageVariants_in with
        | Some variant => parts ++ [variant]
        | None => parts
        end
      else
        (* Ensure the variant is uppercase to be a valid $LANG *)
        match parts !! 1 with
        | Some variant => <[1 := toUpperCase variant]> parts
        | None => parts
        end in
    Str.join "_" parts +:+ ".UTF-8".

Definition shouldSetLangEnvVariable (env : ref) (detectLocale : DetectLocale)
  : M Heap bool :=
  match detectLocale with
  | On => ret true
  | Auto =>
      do lang <- get_prop env "LANG" ;
      ret (match lang with
           | VString lang =>
               negb (Str.truthy lang)
               || (negb (Str.endsWith ".UTF-8" lang)
                   && negb (Str.endsWith ".utf8" lang)
                   && negb (search_euc lang))
           | _ => true
           end)
  | Off => ret false
  end.

End Locale.

(* ================================================================== *)
(** ** Environments *)

(** [type VariableResolver = (str: string) => string]; a resolver may
    throw on a reference it cannot resolve. *)
Definition VariableResolver : Type := string -> Exn + string.

(** A structured path ([Uri]): the code reads its [fsPath]. *)
Record Uri : Type := { fsPath : string }.

(** The fields of a shell launch configuration the module reads. *)
Module IShellLaunchConfig.
Record t : Type := {
  cwd : option (string + Uri);
  env : option ref;
  strictEnv : bool;
  ignoreConfigurationCwd : bool;
}.
End IShellLaunchConfig.

(** Modelled from the spec: the fixed set of inherited names that
    [sanitizeProcessEnvironment] of the processes module removes
    ("removing a fixed set of undesirable inherited keys"). *)
Class Processes := {
  undesirable : string -> bool;
}.

Section Environment.
Context `{StringCase} `{Platform} `{Processes}.

(** Modelled from the spec: [sanitizeProcessEnvironment] of the processes
    module: it removes the undesirable names from the environment, and
    the name it is given ("an IPC-hook variable, by name, is explicitly
    stripped"). *)
Definition sanitizeProcessEnvironment (env : ref) (names : list string)
  : M Heap unit :=
  do keys <- Object_keys env ;
  forEach keys (fun key =>
    if undesirable key || existsb (String.eqb key) names
    then delete_prop env key
    else ret tt).

Definition _mergeEnvironmentValue (env : ref) (key : string) (value : Value)
  : M Heap unit :=
  match value with
  | VString _ => set_prop env key value
  | _ => delete_prop env key
  end.

(** The inner loop of the Windows branch of [mergeEnvironments]:
    [for (const envKey in parent) { if (...) { actualKey = envKey; break; } }]
    over the names of [parent], from the initial [actualKey]. *)
Fixpoint mergeEnvironments_actualKey (configKey : string)
    (envKeys : list string) (actualKey : string) : string :=
  match envKeys with
  | [] => actualKey
  | envKey :: envKeys' =>
      if String.eqb (toLowerCase configKey) (toLowerCase envKey)
      then envKey
      else mergeEnvironments_actualKey configKey envKeys' actualKey
  end.

Definition mergeEnvironments (parent : ref) (other : option ref)
  : M Heap unit :=
  match other with
  | None => ret tt
  | Some other =>
      (* On Windows apply the new values ignoring case, while still
         retaining the case of the original key. *)
      if isWindows then
        do configKeys <- Object_keys other ;
        forEach configKeys (fun configKey =>
          do envKeys <- Object_keys parent ;
          let actualKey :=
            mergeEnvironments_actualKey configKey envKeys configKey in
          do value <- get_prop other configKey ;
          match value with
          | VUndefined => ret tt
          | _ => _mergeEnvironmentValue parent actualKey value
          end)
      else
        do keys <- Object_keys other ;
        forEach keys (fun key =>
          do value <- get_prop other key ;
          match value with
          | VUndefined => ret tt
          | _ => _mergeEnvironmentValue parent key value
          end)
  end.

Definition addTerminalEnvironmentKeys (env : ref) (version : option string)
    (locale : option string) (detectLocale : DetectLocale) : M Heap unit :=
  do _ <- set_prop env "TERM_PROGRAM" (VString "vscode") ;
  do _ <- match version with
          | Some version =>
              if Str.truthy version
              then set_prop env "TERM_PROGRAM_VERSION" (VString version)
              else ret tt
          | None => ret tt
          end ;
  do should <- shouldSetLangEnvVariable env detectLocale ;
  do _ <- (if should
           then set_prop env "LANG" (VString (getLangEnvVariable locale))
           else ret tt) ;
  set_prop env "COLORTERM" (VString "truecolor").

Definition mergeNonNullKeys (env : ref) (other : option ref) : M Heap unit :=
  match other with
  | None => ret tt
  | Some other =>
      do keys <- Object_keys other ;
      forEach keys (fun key =>
        do value <- get_prop other key ;
        if truthy value then set_prop env key value else ret tt)
  end.

Definition resolveConfigurationVariables (variableResolver : VariableResolver)
    (env : ref) : M Heap ref :=
  do keys <- Object_keys env ;
  do _ <- forEach keys (fun key =>
    do value <- get_prop env key ;
    match value with
    | VString s =>
        try_catch
          (do resolved <- call variableResolver s ;
           set_prop env key (VString resolved))
          (fun e => set_prop env key value)
    | _ => ret tt
    end) ;
  ret env.

Definition createTerminalEnvironment
    (shellLaunchConfig : IShellLaunchConfig.t)
    (envFromConfig : option ref)
    (variableResolver : option VariableResolver)
    (version : option string)
    (detectLocale : DetectLocale)
    (baseEnv : ref) : M Heap ref :=
  (* Create a terminal environment based on settings, launch config and
     permissions *)
  do env <- Heap.alloc [] ;
  if IShellLaunchConfig.strictEnv shellLaunchConfig then
    (* strictEnv is true, only use the requested env (ignoring null
       entries) *)
    do _ <- mergeNonNullKeys env (IShellLaunchConfig.env shellLaunchConfig) ;
    ret env
  else
    (* Merge process env with the env from config and from
       shellLaunchConfig *)
    do _ <- mergeNonNullKeys env (Some baseEnv) ;
    do allowedEnvFromConfig <- spread envFromConfig ;
    (* Resolve env vars from config and shell *)
    do _ <- match variableResolver with
            | Some variableResolver =>
                do _ <- resolveConfigurationVariables variableResolver
                          allowedEnvFromConfig ;
                match IShellLaunchConfig.env shellLaunchConfig with
                | Some shellEnv =>
                    do _ <- resolveConfigurationVariables variableResolver
                              shellEnv ;
                    ret tt
                | None => ret tt
                end
            | None => ret tt
            end ;
    (* Sanitize the environment *)
    do _ <- sanitizeProcessEnvironment env ["VSCODE_IPC_HOOK_CLI"] ;
    (* Merge config (settings) and ShellLaunchConfig environments *)
    do _ <- mergeEnvironments env (Some allowedEnvFromConfig) ;
    do _ <- mergeEnvironments env (IShellLaunchConfig.env shellLaunchConfig) ;
    (* Adding other env keys necessary to create the process *)
    do _ <- addTerminalEnvironmentKeys env version locale detectLocale ;
    ret env.

End Environment.

(* ================================================================== *)
(** ** Working directory *)

(** The log sink: the calls of [logService.error], oldest first. *)
Abbreviation Log := (list (string * Exn)).

(** A log service; the code calls its [error]. *)
Inductive ILogService : Type := LogService.

(** [logService?.error(message, e)]. *)
Definition logService_error (logService : option ILogService)
    (message : string) (e : Exn) : M Log unit :=
  match logService with
  | Some _ => modify (fun log => log ++ [(message, e)])
  | None => ret tt
  end.

Section Cwd.
Context `{StringCase} `{Platform} `{path.Interface}.

Definition _resolveCwd (cwd : string)
    (variableResolver : option VariableResolver)
    (logService : option ILogService) : M Log (option string) :=
  match variableResolver with
  | Some variableResolver =>
      try_catch
        (do resolved <- call variableResolver cwd ; ret (Some resolved))
        (fun e =>
           do _ <- logService_error logService
                     "Could not resolve terminal cwd" e ;
           ret None)
  | None => ret (Some cwd)
  end.

Definition _sanitizeCwd (cwd : string) : string :=
  (* Make the drive letter uppercase on Windows (see #9448) *)
  if OperatingSystem_eqb OS Windows
     && Str.truthy cwd
     && match Str.at_ cwd 1 with Some c => Ascii.eqb c ":" | None => false end
  then toUpperCase (Str.charAt cwd 0) +:+ Str.substr 1 cwd
  else cwd.

(** A string-or-undefined value used as a condition. *)
Definition truthy_opt (s : option string) : bool :=
  match s with Some s => Str.truthy s | None => false end.

(** [shell.cwd] used as a condition: a [Uri] is an object, hence truthy. *)
Definition truthy_cwd (c : option (string + Uri)) : bool :=
  match c with
  | Some (inl s) => Str.truthy s
  | Some (inr _) => true
  | None => false
  end.

(** [a || b] on strings. *)
Definition or_else (a : option string) (b : string) : string :=
  match a with
  | Some a' => if Str.truthy a' then a' else b
  | None => b
  end.

Definition getCwd
    (shell : IShellLaunchConfig.t)
    (userHome : option string)
    (variableResolver : option VariableResolver)
    (root : option Uri)
    (customCwd : option string)
    (logService : option ILogService) : M Log string :=
  if truthy_cwd (IShellLaunchConfig.cwd shell) then
    let unresolved :=
      match IShellLaunchConfig.cwd shell with
      | Some (inr uri) => fsPath uri
      | Some (inl s) => s
      | None => ""
      end in
    do resolved <- _resolveCwd unresolved variableResolver None ;
    ret (_sanitizeCwd (or_else resolved unresolved))
  else
    do cwd <-
      (if negb (IShellLaunchConfig.ignoreConfigurationCwd shell)
          && truthy_opt customCwd
       then
         do customCwd <-
           match variableResolver with
           | Some _ =>
               _resolveCwd (default "" customCwd) variableResolver logService
           | None => ret customCwd
           end ;
         if truthy_opt customCwd then
           if path.isAbsolute (default "" customCwd) then ret customCwd
           else match root with
                | Some root =>
                    ret (Some (path.join [fsPath root; default "" customCwd]))
                | None => ret None
                end
         else ret None
       else ret None) ;
    (* If there was no custom cwd or it was relative with no workspace *)
    let cwd :=
      if negb (truthy_opt cwd) then
        match root with
        | Some root => fsPath root
        | None => or_else userHome ""
        end
      else default "" cwd in
    ret (_sanitizeCwd cwd).

End Cwd.

(* ================================================================== *)
(** ** Instances used to run the definitions *)

Module Run.

(** A small [path] for names separated by [/]: absolute is "starts with
    [/]", [join] puts [/] between the parts, [dirname] cuts at the last
    [/]. *)
Fixpoint dirname_aux (s : string) : option string :=
  match s with
  | EmptyString => None
  | String c s' =>
      match dirname_aux s' with
      | Some d => Some (String c d)
      | None => if Ascii.eqb c "/" then Some EmptyString else None
      end
  end.

Definition slash_path : path.Interface :=
  {| path.isAbsolute s := match s with String "/" _ => true | _ => false end;
     path.dirname s :=
       match dirname_aux s with
       | Some EmptyString => "/"
       | Some d => d
       | None => "."
       end;
     path.join parts := Str.join "/" parts;
     path.delimiter := ":"%char |}.

Definition linux : Platform :=
  {| isWindows := false; OS := Linux; locale := Some "en-us" |}.

Definition windows : Platform :=
  {| isWindows := true; OS := Windows; locale := Some "en-us" |}.

Definition home : process.Interface := {| process.cwd := "/home" |}.

Definition no_sanitizing : Processes := {| undesirable := fun _ => false |}.

Definition among (l : list string) (p : string) : bool :=
  existsb (String.eqb p) l.

End Run.

(* ================================================================== *)
(** ** The documented probe order of findExecutable *)

Section ProbeOrder.
Context `{StringCase} `{Platform} `{path.Interface} `{process.Interface}.

(** The search list: the explicit [paths], else the [PATH] entry of the
    environment split on the delimiter, else none. *)
Definition search_list (paths : option (list string)) (env : Obj)
  : option (list string) :=
  match paths with
  | Some paths => Some paths
  | None =>
      match getCaseInsensitive env "PATH" with
      | VString envPath => Some (Str.split path.delimiter envPath)
      | _ => None
      end
  end.

(** What one entry of the search list contributes: [entry/command] (a
    relative entry joined to [cwd]), then on Windows the same with
    [.com], then with [.exe]. *)
Definition entry_candidates (command cwd pathEntry : string) : list string :=
  let fullPath :=
    if path.isAbsolute pathEntry
    then path.join [pathEntry; command]
    else path.join [cwd; pathEntry; command] in
  fullPath
    :: (if isWindows then [fullPath +:+ ".com"; fullPath +:+ ".exe"] else []).

(** The candidates of a call, in the order they are to be probed. *)
Definition probe_order (command : string) (cwd : option string)
    (paths : option (list string)) (env : Obj) : list string :=
  if path.isAbsolute command then [command]
  else
    let cwd := default process.cwd cwd in
    if negb (String.eqb (path.dirname command) ".") then [path.join [cwd; command]]
    else
      match search_list paths env with
      | Some entries =>
          flat_map (entry_candidates command cwd) entries
            ++ [path.join [cwd; command]]
      | None => [path.join [cwd; command]]
      end.

(** Probing candidates one after the other until one exists. *)
Fixpoint first_existing {FS} (exists_ : string -> M FS bool)
    (candidates : list string) : M FS (option string) :=
  match candidates with
  | [] => ret None
  | c :: candidates' =>
      do found <- exists_ c ;
      if found then ret (Some c) else first_existing exists_ candidates'
  end.

(** An existence check that answers by [present] and records the paths it
    is asked about, oldest first. *)
Definition probing (present : string -> bool) : string -> M (list string) bool :=
  fun p trace => (Returned (present p), trace ++ [p]).

(** The candidates a run over [candidates] probes when [present] answers:
    all up to and including the first one present. *)
Fixpoint probed (present : string -> bool) (candidates : list string)
  : list string :=
  match candidates with
  | [] => []
  | c :: candidates' =>
      c :: (if present c then [] else probed present candidates')
  end.

End ProbeOrder.

(* ================================================================== *)
(** * The vocabulary of the properties *)

(** ** The store and its objects *)

(** The object behind a reference, as [Heap.read] gives it. *)
Definition deref (h : Heap) (r : ref) : Obj := default [] (h !! r).

(** The values of an object are all strings. *)
Definition all_strings (o : Obj) : Prop := Forall (fun kv => isString kv.2 = true) o.

(** An assignment [o[k] = v] stores [v] under [k]: [k] is an own property
    of [o], or a name other than [__proto__]. *)
Definition assignable (o : Obj) (k : string) : bool :=
  negb (String.eqb k "__proto__") || Object.has o k.


(** ** Suffixes of a LANG value *)

(** A string ends with [suffix]. *)
Definition has_suffix (s suffix : string) : Prop :=
  exists pre, s = pre +:+ suffix.

(** A string has a suffix [.euc] followed by at least one character, the
    first of which is not a line terminator: the match of [/\.euc.+/]. *)
Definition has_euc_suffix (s : string) : Prop :=
  exists pre c rest,
    s = pre +:+ ".euc" +:+ String c rest /\ isLineTerminator c = false.

(** ** The cwd of a launch *)

(** The string of an explicit [shell.cwd], when there is one: a non-empty
    string, or the filesystem path of a structured path. *)
Definition explicit_cwd (shell : IShellLaunchConfig.t) : option string :=
  match IShellLaunchConfig.cwd shell with
  | Some (inl s) => if Str.truthy s then Some s else None
  | Some (inr uri) => Some (fsPath uri)
  | None => None
  end.

(** The configured cwd that applies: none when the launch config opts out
    or no (non-empty) configured cwd is supplied; else the configured cwd
    as resolved by the resolver, if there is one, and none when the
    resolver fails or resolves to the empty string. *)
Definition configured_cwd (shell : IShellLaunchConfig.t)
    (variableResolver : option VariableResolver) (customCwd : option string)
  : option string :=
  if IShellLaunchConfig.ignoreConfigurationCwd shell then None
  else
    match customCwd with
    | Some c =>
        if Str.truthy c then
          match variableResolver with
          | Some resolver =>
              match resolver c with
              | inr c' => if Str.truthy c' then Some c' else None
              | inl _ => None
              end
          | None => Some c
          end
        else None
    | None => None
    end.

(** The fallback: the workspace root path, else the user home path, else
    the empty string. *)
Definition fallback_cwd (root : option Uri) (userHome : option string) : string :=
  match root with
  | Some root => fsPath root
  | None => match userHome with Some home => home | None => ""%string end
  end.

(** ** Merging an overlay, entry by entry *)

Section MergeSpecification.
Context `{StringCase} `{Platform}.

(** Two names are equal up to case. *)
Definition matches_ignoring_case (a b : string) : bool :=
  String.eqb (toLowerCase a) (toLowerCase b).

(** The name an overlay name is applied under: on Windows the first
    name of the base that equals it up to case, if there is one; else,
    and on the other platforms, the overlay name as it is. *)
Definition resolved_key (base : Obj) (key : string) : string :=
  if isWindows then
    match List.find (matches_ignoring_case key) (Object.keys base) with
    | Some existing => existing
    | None => key
    end
  else key.

(** One entry of the overlay: a string is assigned under the resolved
    name, [null] deletes the property of that name, [undefined] does
    nothing. *)
Definition apply_overlay_entry (base : Obj) (entry : string * Value) : Obj :=
  match entry.2 with
  | VString value => Object.set base (resolved_key base entry.1) (VString value)
  | VNull => Object.delete base (resolved_key base entry.1)
  | VUndefined => base
  end.


(** An overlay name concerns a name of the base: up to case on Windows,
    exactly on the other platforms. *)
Definition key_matches (overlayKey baseKey : string) : bool :=
  if isWindows then matches_ignoring_case overlayKey baseKey
  else String.eqb overlayKey baseKey.

End MergeSpecification.

(** ** The loops, by what they do to the object they update *)

(** Each function of [Pure] is the function of the same name on the
    object behind the reference that the loop updates, as a fold over the
    names the loop enumerates; [Runs] below proves that the code does
    this. *)
Module Pure.
Section Pure.
Context `{StringCase} `{Platform} `{Processes}.

Definition mergeNonNullKeys (env other : Obj) : Obj :=
  fold_left
    (fun env key =>
       let value := Object.get other key in
       if truthy value then Object.set env key value else env)
    (Object.keys other) env.

Definition resolveValue (variableResolver : VariableResolver) (value : Value)
  : Value :=
  match value with
  | VString s =>
      match variableResolver s with
      | inr resolved => VString resolved
      | inl _ => value
      end
  | _ => value
  end.

Definition resolveConfigurationVariables (variableResolver : VariableResolver)
    (env : Obj) : Obj :=
  fold_left
    (fun env key =>
       match Object.get env key with
       | VString s => Object.set env key (resolveValue variableResolver (VString s))
       | _ => env
       end)
    (Object.keys env) env.

Definition sanitizeProcessEnvironment (env : Obj) (names : list string) : Obj :=
  fold_left
    (fun env key =>
       if undesirable key || existsb (String.eqb key) names
       then Object.delete env key
       else env)
    (Object.keys env) env.

Definition mergeEnvironmentValue (env : Obj) (key : string) (value : Value)
  : Obj :=
  match value with
  | VString _ => Object.set env key value
  | _ => Object.delete env key
  end.

Definition actualKey (parent : Obj) (configKey : string) : string :=
  if isWindows
  then mergeEnvironments_actualKey configKey (Object.keys parent) configKey
  else configKey.

Definition mergeEnvironments_step (other : Obj) (key : string) (parent : Obj)
  : Obj :=
  match Object.get other key with
  | VUndefined => parent
  | value => mergeEnvironmentValue parent (actualKey parent key) value
  end.

Definition mergeEnvironments (parent other : Obj) : Obj :=
  fold_left (fun parent key => mergeEnvironments_step other key parent)
    (Object.keys other) parent.

Definition shouldSetLangEnvVariable (env : Obj) (detectLocale : DetectLocale)
  : bool :=
  match detectLocale with
  | On => true
  | Auto =>
      match Object.get env "LANG" with
      | VString lang =>
          negb (Str.truthy lang)
          || (negb (Str.endsWith ".UTF-8" lang)
              && negb (Str.endsWith ".utf8" lang)
              && negb (search_euc lang))
      | _ => true
      end
  | Off => false
  end.

Definition addTerminalEnvironmentKeys (env : Obj) (version : option string)
    (locale : option string) (detectLocale : DetectLocale) : Obj :=
  let env := Object.set env "TERM_PROGRAM" (VString "vscode") in
  let env :=
    match version with
    | Some version =>
        if Str.truthy version
        then Object.set env "TERM_PROGRAM_VERSION" (VString version)
        else env
    | None => env
    end in
  let env :=
    if shouldSetLangEnvVariable env detectLocale
    then Object.set env "LANG" (VString (getLangEnvVariable locale))
    else env in
  Object.set env "COLORTERM" (VString "truecolor").

End Pure.
End Pure.

(** ** The overlays and the environment of createTerminalEnvironment *)


(** Every string value resolved; a value that is not a string, or whose
    resolution throws, as it is. *)
Definition resolve_entries (variableResolver : VariableResolver) (o : Obj) : Obj :=
  map (fun kv => (kv.1, Pure.resolveValue variableResolver kv.2)) o.

Section PipelineDefinitions.
Context `{StringCase} `{Platform} `{Processes}.

(** An overlay after the resolution of its variables, if there is a
    resolver. *)
Definition resolved (variableResolver : option VariableResolver) (o : Obj) : Obj :=
  match variableResolver with
  | Some resolver => Pure.resolveConfigurationVariables resolver o
  | None => o
  end.

(** The own properties of the configured overlay, if there is one. *)
Definition configured_overlay (h : Heap) (envFromConfig : option ref) : Obj :=
  match envFromConfig with
  | Some c => deref h c
  | None => []
  end.

(** The environment the pipeline builds from the base environment
    [base], the copy [configured] of the configured overlay and the
    launch config's overlay [shell], both overlays already resolved. *)
Definition pipeline (base configured : Obj) (shell : option Obj)
    (version : option string) (detectLocale : DetectLocale) : Obj :=
  let env := Pure.mergeNonNullKeys [] base in
  let env := Pure.sanitizeProcessEnvironment env ["VSCODE_IPC_HOOK_CLI"%string] in
  let env := Pure.mergeEnvironments env configured in
  let env :=
    match shell with
    | Some shell => Pure.mergeEnvironments env shell
    | None => env
    end in
  Pure.addTerminalEnvironmentKeys env version locale detectLocale.

(** The store after the resolution of the launch config's overlay. *)
Definition store_resolved (variableResolver : option VariableResolver)
    (shellEnv : option ref) (h : Heap) : Heap :=
  match shellEnv with
  | Some shellEnv => <[shellEnv := resolved variableResolver (deref h shellEnv)]> h
  | None => h
  end.

End PipelineDefinitions.

(** A resolver that knows [${v}] only, and a store with a launch config
    overlay (at 0), a base environment (at 1) and a configured overlay
    (at 2). *)
Module Sample.

Definition resolver : VariableResolver :=
  fun s => if String.eqb s "${v}" then inr "r"%string
           else inl (Error "unknown variable").

Definition store : Heap :=
  [ [("A"%string, VString "${v}"); ("B"%string, VNull); ("HOME"%string, VNull)];
    [("HOME"%string, VString "/h"); ("B"%string, VString "b")];
    [("X"%string, VString "${v}"); ("Y"%string, VString "${w}")] ].

Definition shellLaunchConfig : IShellLaunchConfig.t :=
  {| IShellLaunchConfig.cwd := None;
     IShellLaunchConfig.env := Some 0;
     IShellLaunchConfig.strictEnv := false;
     IShellLaunchConfig.ignoreConfigurationCwd := false |}.

End Sample.

(* ================================================================== *)
(** * Further code of the two files *)

(** ** getWindowsBuildNumber *)

(** The [os] module. *)
Module os.
Class Interface := {
  release : string;
}.
End os.

(** [\d+] at the start of a string, greedy: the longest run of digits (it
    may be empty: then there is no match) and what follows it. In the
    pattern below a run is followed by [\.] or by nothing, so giving back
    digits of a run never turns a failure into a match. *)
Fixpoint digits (s : string) : string * string :=
  match s with
  | EmptyString => (EmptyString, EmptyString)
  | String c s' =>
      if isDigit c then let (d, r) := digits s' in (String c d, r)
      else (EmptyString, s)
  end.

(** [/(\d+)\.(\d+)\.(\d+)/] matched at the start of a string: the three
    groups. *)
Definition version_here (s : string) : option (string * string * string) :=
  let (g1, r) := digits s in
  if Str.truthy g1 then
    match Str.stripPrefix "." r with
    | Some r =>
        let (g2, r) := digits r in
        if Str.truthy g2 then
          match Str.stripPrefix "." r with
          | Some r =>
              let (g3, _) := digits r in
              if Str.truthy g3 then Some (g1, g2, g3) else None
          | None => None
          end
        else None
    | None => None
    end
  else None.

(** [(/(\d+)\.(\d+)\.(\d+)/g).exec(s)] on a new expression: the groups of
    the leftmost match. *)
Fixpoint version_exec (s : string) : option (string * string * string) :=
  match version_here s with
  | Some groups => Some groups
  | None =>
      match s with
      | EmptyString => None
      | String _ s' => version_exec s'
      end
  end.

(** A match has its three groups, so [osVersion.length === 4] holds for
    every match. *)
Definition getWindowsBuildNumber `{os.Interface} : N :=
  let osVersion := version_exec os.release in
  match osVersion with
  | Some (_, _, build) => parseInt build
  | None => 0%N
  end.

(** ** The borders of the auxiliary bar *)

Inductive Position : Type := LEFT | RIGHT.

Definition Position_eqb (a b : Position) : bool :=
  match a, b with
  | LEFT, LEFT | RIGHT, RIGHT => true
  | _, _ => false
  end.

(** The six properties of [container.style] that [updateStyles] assigns. *)
Record BorderStyles : Type := {
  borderLeftColor : string;
  borderRightColor : string;
  borderLeftStyle : string;
  borderRightStyle : string;
  borderLeftWidth : string;
  borderRightWidth : string;
}.

(** [a || b] on the results of [getColor], each a string or [null]. *)
Definition color_or (a b : option string) : option string :=
  match a with
  | Some a' => if Str.truthy a' then a else b
  | None => b
  end.

(** The [borderWidth] option the constructor passes on, from the colors
    of [SIDE_BAR_BORDER] and [contrastBorder]. *)
Definition borderWidth (sideBarBorder contrastBorder : option string) : nat :=
  if truthy_opt (color_or sideBarBorder contrastBorder) then 1 else 0.

(** The assignments of [updateStyles] to the style of the container (one
    is there: [assertIsDefined] has returned), from the two colors and the
    position of the side bar; the styles that [super.updateStyles] sets are
    other properties and are left out. *)
Definition updateStyles (sideBarBorder contrastBorder : option string)
    (sideBarPosition : Position) : BorderStyles :=
  let borderColor := color_or sideBarBorder contrastBorder in
  let isPositionLeft := Position_eqb sideBarPosition RIGHT in
  {| borderLeftColor := default "" borderColor;
     borderRightColor := default "" borderColor;
     borderLeftStyle :=
       if truthy_opt borderColor && negb isPositionLeft then "solid" else "none";
     borderRightStyle :=
       if truthy_opt borderColor && isPositionLeft then "solid" else "none";
     borderLeftWidth :=
       if truthy_opt borderColor && negb isPositionLeft then "1px" else "0px";
     borderRightWidth :=
       if truthy_opt borderColor && isPositionLeft then "1px" else "0px" |}.

(** ** Further vocabulary *)

(** An existence check without state: an answer, or an exception, for
    each path. *)
Definition asking (answer : string -> Exn + bool) : string -> M unit bool :=
  fun p s =>
    (match answer p with
     | inr found => Returned found
     | inl e => Thrown e
     end, s).

(** The check says that the path does not exist. *)
Definition answers_absent (answer : string -> Exn + bool) (p : string) : bool :=
  match answer p with
  | inr false => true
  | _ => false
  end.

(** The four names [addTerminalEnvironmentKeys] may write. *)
Definition stamped_keys : list string :=
  ["TERM_PROGRAM"; "TERM_PROGRAM_VERSION"; "LANG"; "COLORTERM"]%string.

(** The environment after the first two assignments of
    [addTerminalEnvironmentKeys]. *)
Definition stamped_version (e : Obj) (version : option string) : Obj :=
  let e1 := Object.set e "TERM_PROGRAM" (VString "vscode") in
  match version with
  | Some version =>
      if Str.truthy version
      then Object.set e1 "TERM_PROGRAM_VERSION" (VString version)
      else e1
  | None => e1
  end.

(** No two names of the object are equal up to case. *)
Definition case_unique `{StringCase} (o : Obj) : Prop :=
  NoDup (map toLowerCase (Object.keys o)).


(** One round of the loop of [resolveConfigurationVariables]. *)
Definition resolve_step (variableResolver : VariableResolver) (env : Obj)
    (key : string) : Obj :=
  match Object.get env key with
  | VString s => Object.set env key (Pure.resolveValue variableResolver (VString s))
  | _ => env
  end.

(** The character occurs in the string. *)
Fixpoint contains_char (c : ascii) (s : string) : bool :=
  match s with
  | EmptyString => false
  | String c' s' => Ascii.eqb c' c || contains_char c s'
  end.

(** How often the character occurs in the string. *)
Fixpoint count_char (c : ascii) (s : string) : nat :=
  match s with
  | EmptyString => 0
  | String c' s' => (if Ascii.eqb c' c then 1 else 0) + count_char c s'
  end.

(** No character of the string is a digit. *)
Fixpoint all_digits_free (s : string) : bool :=
  match s with
  | EmptyString => true
  | String c s' => negb (isDigit c) && all_digits_free s'
  end.

(** The string does not start with a digit. *)
Definition no_leading_digit (s : string) : bool :=
  match s with
  | EmptyString => true
  | String c _ => negb (isDigit c)
  end.

(* ================================================================== *)
(** * Properties *)

(** ** The monad *)

Ltac unfold_monad :=
  unfold call in *; unfold bind, ret, throw, try_catch, gets, modify in *.

Lemma bind_Returned {St A B} (c : M St A) (k : A -> M St B) s a s' :
  c s = (Returned a, s') -> bind c k s = k a s'.
Proof. intros Hc. unfold bind. now rewrite Hc. Qed.

Lemma bind_Thrown {St A B} (c : M St A) (k : A -> M St B) s e s' :
  c s = (Thrown e, s') -> bind c k s = (Thrown e, s').
Proof. intros Hc. unfold bind. now rewrite Hc. Qed.

(** ** findExecutable *)

(** One probe on both sides of an equation: the cases of its outcome, with
    the equation settled when the probe throws or finds the candidate. *)
Ltac probe :=
  match goal with
  | |- bind ?c _ ?s = _ =>
      let E := fresh "E" in
      destruct (c s) as [[[|]|?] ?] eqn:E;
      [ rewrite !(bind_Returned _ _ _ _ _ E); try reflexivity
      | rewrite !(bind_Returned _ _ _ _ _ E); try reflexivity
      | rewrite !(bind_Thrown _ _ _ _ _ E); try reflexivity ];
      clear E
  end.

Section FindExecutableProperties.
Context `{StringCase} `{Platform} `{path.Interface} `{process.Interface}.
Context {FS : Type} (exists_ : string -> M FS bool).

Lemma return_if_exists_first_existing p s :
  return_if_exists exists_ p s = first_existing exists_ [p] s.
Proof.
  unfold return_if_exists. simpl. unfold bind.
  destruct (exists_ p s) as [[[|]|e] s']; reflexivity.
Qed.

Lemma first_existing_app l1 l2 s :
  first_existing exists_ (l1 ++ l2) s
  = bind (first_existing exists_ l1)
      (fun found =>
         match found with
         | Some p => ret (Some p)
         | None => first_existing exists_ l2
         end) s.
Proof.
  revert s. induction l1 as [|c l1 IH]; intros s; simpl.
  - reflexivity.
  - unfold bind at 1 2 3.
    destruct (exists_ c s) as [[[|]|e] s']; try reflexivity.
    rewrite IH. reflexivity.
Qed.

Lemma findExecutable_loop_first_existing command cwd paths s :
  findExecutable_loop exists_ command cwd paths s
  = first_existing exists_ (flat_map (entry_candidates command cwd) paths) s.
Proof.
  revert s. induction paths as [|pathEntry paths IH]; intros s.
  - reflexivity.
  - cbn [findExecutable_loop flat_map]. unfold entry_candidates at 1.
    set (fullPath := if path.isAbsolute pathEntry then _ else _).
    cbn [app first_existing].
    probe.
    destruct isWindows; cbn [app first_existing]; [|apply IH].
    probe. probe. apply IH.
Qed.

Lemma findExecutable_refines command cwd paths env s :
  findExecutable exists_ command cwd paths env s
  = first_existing exists_ (probe_order command cwd paths env) s.
Proof.
  unfold findExecutable, probe_order.
  destruct (path.isAbsolute command); [apply return_if_exists_first_existing|].
  destruct (negb _); [apply return_if_exists_first_existing|].
  assert (Hsl : match paths, getCaseInsensitive env "PATH" with
                | None, VString envPath => Some (Str.split path.delimiter envPath)
                | _, _ => paths
                end = search_list paths env).
  { unfold search_list. destruct paths, (getCaseInsensitive env "PATH"); reflexivity. }
  rewrite Hsl. destruct (search_list paths env) as [[|e entries]|].
  - apply return_if_exists_first_existing.
  - rewrite first_existing_app. unfold bind at 1 2.
    rewrite findExecutable_loop_first_existing.
    destruct (first_existing _ _ s) as [[[p|]|ex] s1]; try reflexivity.
    apply return_if_exists_first_existing.
  - apply return_if_exists_first_existing.
Qed.

Lemma first_existing_confirmed l s p s' :
  first_existing exists_ l s = (Returned (Some p), s') ->
  In p l /\ exists s0, exists_ p s0 = (Returned true, s').
Proof.
  revert s. induction l as [|c l IH]; intros s; simpl.
  - unfold ret. intros [=].
  - unfold bind. destruct (exists_ c s) as [[[|]|e] s1] eqn:Hc.
    + unfold ret. intros [= <- <-]. split; [now left|]. now exists s.
    + intros Hr. destruct (IH _ Hr) as [Hin Hex]. split; [now right|]. exact Hex.
    + intros [=].
Qed.

End FindExecutableProperties.

Lemma first_existing_probing present l trace :
  first_existing (probing present) l trace
  = (Returned (List.find present l), trace ++ probed present l).
Proof.
  revert trace. induction l as [|c l IH]; intros trace; simpl.
  - unfold ret. now rewrite app_nil_r.
  - unfold bind, probing at 1. destruct (present c).
    + reflexivity.
    + rewrite IH. now rewrite <- app_assoc.
Qed.

(** C1: findExecutable probes the candidates of the documented order one
    after the other and returns the first one the existence check confirms,
    [undefined] when none is: so for every existence check, stateful or not
    (first part), with the returned path confirmed by the last probe made
    (second part); for a predicate that records its probes, the result is
    the first candidate of the order that is present and the probes are
    those up to it (third part); an absolute command is probed alone and
    returned iff it is present (fourth part); a relative command with a
    directory component is joined to the cwd and probed once (fifth
    part). *)
Theorem findExecutable_first_in_probe_order
    `{StringCase} `{Platform} `{path.Interface} `{process.Interface}
    (command : string) (cwd : option string) (paths : option (list string))
    (env : Obj) :
  (forall FS (exists_ : string -> M FS bool) (s : FS),
      findExecutable exists_ command cwd paths env s
      = first_existing exists_ (probe_order command cwd paths env) s)
  /\ (forall FS (exists_ : string -> M FS bool) (s s' : FS) (p : string),
         findExecutable exists_ command cwd paths env s = (Returned (Some p), s') ->
         In p (probe_order command cwd paths env)
         /\ exists s0, exists_ p s0 = (Returned true, s'))
  /\ (forall (present : string -> bool) (trace : list string),
         findExecutable (probing present) command cwd paths env trace
         = (Returned (List.find present (probe_order command cwd paths env)),
            trace ++ probed present (probe_order command cwd paths env)))
  /\ (path.isAbsolute command = true ->
      forall (present : string -> bool) (trace : list string),
        findExecutable (probing present) command cwd paths env trace
        = (Returned (if present command then Some command else None),
           trace ++ [command]))
  /\ (path.isAbsolute command = false -> path.dirname command <> "."%string ->
      forall (present : string -> bool) (trace : list string),
        let fullPath := path.join [default process.cwd cwd; command] in
        findExecutable (probing present) command cwd paths env trace
        = (Returned (if present fullPath then Some fullPath else None),
           trace ++ [fullPath])).
Proof.
  split; [|split; [|split; [|split]]].
  - intros FS exists_ s. apply findExecutable_refines.
  - intros FS exists_ s s' p Hrun. rewrite findExecutable_refines in Hrun.
    exact (first_existing_confirmed exists_ _ _ _ _ Hrun).
  - intros present trace.
    rewrite findExecutable_refines. apply first_existing_probing.
  - intros Habs present trace.
    rewrite findExecutable_refines, first_existing_probing.
    unfold probe_order. rewrite Habs. simpl.
    destruct (present command); reflexivity.
  - intros Habs Hdir present trace fullPath.
    rewrite findExecutable_refines, first_existing_probing.
    unfold probe_order. rewrite Habs.
    destruct (String.eqb_spec (path.dirname command) ".") as [Heq|_];
      [contradiction|].
    simpl. fold fullPath. destruct (present fullPath); reflexivity.
Qed.

(** On Windows, with [/b/cmd.exe] the only file: [/a] is tried with its
    two suffixes, then [/b/cmd], [/b/cmd.com] and at last [/b/cmd.exe]. *)
Lemma findExecutable_first_in_probe_order_witness :
  @findExecutable AsciiCase.instance Run.windows Run.slash_path Run.home _
    (probing (Run.among ["/b/cmd.exe"]))
    "cmd" (Some "/w") (Some ["/a"; "/b"]) [] []
  = (Returned (Some "/b/cmd.exe"),
     ["/a/cmd"; "/a/cmd.com"; "/a/cmd.exe";
      "/b/cmd"; "/b/cmd.com"; "/b/cmd.exe"]).
Proof.
  destruct (@findExecutable_first_in_probe_order
              AsciiCase.instance Run.windows Run.slash_path Run.home
              "cmd" (Some "/w") (Some ["/a"; "/b"]) [])
    as (_ & _ & Hrun & _).
  rewrite Hrun. reflexivity.
Defined.

(** ** Strings *)

Lemma append_nil_l (s : string) : "" +:+ s = s.
Proof. reflexivity. Qed.

Lemma append_cons (c : ascii) (s t : string) :
  String c s +:+ t = String c (s +:+ t).
Proof. reflexivity. Qed.

Lemma append_nil_r (s : string) : s +:+ "" = s.
Proof.
  induction s as [|c s IH]; [reflexivity|]. now rewrite append_cons, IH.
Qed.

Lemma append_assoc (a b c : string) : (a +:+ b) +:+ c = a +:+ (b +:+ c).
Proof.
  induction a as [|x a IH]; [reflexivity|]. now rewrite !append_cons, IH.
Qed.

Lemma stripPrefix_Some prefix s r :
  Str.stripPrefix prefix s = Some r <-> s = prefix +:+ r.
Proof.
  revert s. induction prefix as [|a prefix IH]; intros s; simpl.
  - rewrite append_nil_l. split; [intros [= ->]; reflexivity | intros ->; reflexivity].
  - rewrite append_cons. destruct s as [|b s].
    + split; intros [=].
    + destruct (Ascii.eqb_spec a b) as [->|Hne].
      * rewrite IH. split; [intros ->; reflexivity | intros [= ->]; reflexivity].
      * split; [intros [=] | intros [= <- _]; contradiction].
Qed.

Lemma endsWith_true suffix s :
  Str.endsWith suffix s = true <-> has_suffix s suffix.
Proof.
  unfold has_suffix. induction s as [|c s IH].
  - cbn [Str.endsWith]. rewrite orb_false_r. split.
    + intros Heq%String.eqb_eq. exists ""%string. exact Heq.
    + intros [pre Hpre]. destruct pre; [|discriminate].
      rewrite append_nil_l in Hpre. subst. reflexivity.
  - cbn [Str.endsWith]. rewrite orb_true_iff, IH. split.
    + intros [Heq%String.eqb_eq | [pre ->]].
      * exists ""%string. exact Heq.
      * exists (String c pre). reflexivity.
    + intros [[|c' pre] Hpre].
      * left. rewrite append_nil_l in Hpre. subst. apply String.eqb_refl.
      * right. rewrite append_cons in Hpre. injection Hpre as -> ->. now exists pre.
Qed.

(** ** getLangEnvVariable *)

(** C4 (as amended): for a locale tag of two or more segments separated by
    [-], getLangEnvVariable puts the second segment in upper case, keeps
    every other segment (those beyond the second included) as it is, joins
    all of them with [_] and appends [.UTF-8]; for a tag of exactly two
    segments that is [language_VARIANT.UTF-8]. *)
Theorem getLangEnvVariable_keeps_all_segments `{StringCase}
    (locale language variant : string) (rest : list string) :
  Str.split "-" locale = language :: variant :: rest ->
  getLangEnvVariable (Some locale)
  = Str.join "_" (language :: toUpperCase variant :: rest) +:+ ".UTF-8"
  /\ (rest = [] ->
      getLangEnvVariable (Some locale)
      = language +:+ "_" +:+ toUpperCase variant +:+ ".UTF-8").
Proof.
  intros Hsplit.
  assert (Hrun : getLangEnvVariable (Some locale)
                 = Str.join "_" (language :: toUpperCase variant :: rest)
                   +:+ ".UTF-8").
  { unfold getLangEnvVariable.
    destruct locale as [|c locale]; [discriminate Hsplit|].
    cbn [Str.truthy String.eqb negb]. rewrite Hsplit. reflexivity. }
  split; [exact Hrun|].
  intros ->. rewrite Hrun. unfold Str.join. cbn [String.concat].
  now rewrite !append_assoc.
Qed.

(** The tag [pt-br]: two segments, the second one in upper case. *)
Lemma getLangEnvVariable_keeps_all_segments_witness :
  @getLangEnvVariable AsciiCase.instance (Some "pt-br") = "pt_BR.UTF-8".
Proof.
  destruct (@getLangEnvVariable_keeps_all_segments AsciiCase.instance
              "pt-br" "pt" "br" [] eq_refl) as [_ Htwo].
  rewrite (Htwo eq_refl). reflexivity.
Defined.

(** C4 as stated fails: the third segment of [zh-Hans-CN] is not dropped,
    the result is not [zh_HANS.UTF-8] (it is [zh_HANS_CN.UTF-8]). *)
Lemma getLangEnvVariable_third_segment_not_dropped :
  Str.split "-" "zh-Hans-CN" = ["zh"; "Hans"; "CN"]
  /\ @getLangEnvVariable AsciiCase.instance (Some "zh-Hans-CN")
     <> "zh" +:+ "_" +:+ @toUpperCase AsciiCase.instance "Hans" +:+ ".UTF-8".
Proof. split; [reflexivity|]. vm_compute. discriminate. Qed.

Example getLangEnvVariable_examples :
  @getLangEnvVariable AsciiCase.instance None = "en_US.UTF-8"
  /\ @getLangEnvVariable AsciiCase.instance (Some "fr") = "fr_FR.UTF-8"
  /\ @getLangEnvVariable AsciiCase.instance (Some "xx") = "xx.UTF-8"
  /\ @getLangEnvVariable AsciiCase.instance (Some "zh-Hans-CN") = "zh_HANS_CN.UTF-8".
Proof. repeat split. Qed.

(** ** shouldSetLangEnvVariable *)

Lemma euc_here_true s :
  euc_here s = true
  <-> exists c rest, s = ".euc" +:+ String c rest /\ isLineTerminator c = false.
Proof.
  unfold euc_here. destruct (Str.stripPrefix ".euc" s) as [r|] eqn:Hstrip.
  - apply stripPrefix_Some in Hstrip. subst s. split.
    + destruct r as [|c r]; [discriminate|]. intros Hc%negb_true_iff. eauto.
    + intros (c & rest & Heq & Hc). apply (inj (String.app ".euc")) in Heq.
      subst r. now rewrite Hc.
  - split; [discriminate|]. intros (c & rest & Heq & _).
    apply stripPrefix_Some in Heq. congruence.
Qed.

Lemma search_euc_true s : search_euc s = true <-> has_euc_suffix s.
Proof.
  unfold has_euc_suffix. induction s as [|x s IH].
  - cbn [search_euc]. rewrite orb_false_r, euc_here_true. split.
    + intros (c & rest & Heq & Hc). discriminate Heq.
    + intros (pre & c & rest & Heq & _). destruct pre; discriminate Heq.
  - cbn [search_euc]. rewrite orb_true_iff, euc_here_true, IH. split.
    + intros [(c & rest & Heq & Hc) | (pre & c & rest & Heq & Hc)].
      * exists ""%string, c, rest. now rewrite append_nil_l.
      * exists (String x pre), c, rest. rewrite append_cons. now subst.
    + intros ([|y pre] & c & rest & Heq & Hc).
      * left. rewrite append_nil_l in Heq. eauto.
      * right. rewrite append_cons in Heq. injection Heq as -> ->. eauto.
Qed.

(** C8: shouldSetLangEnvVariable is [true] for every environment when
    detectLocale is [on] and [false] for every environment when it is
    [off]; when it is [auto], it is [true] iff the environment has no LANG
    value, or the value it has ends neither with [.UTF-8] nor with [.utf8]
    nor with a euc variant, the suffixes compared as they are written. The
    environment is left as it is. *)
Theorem shouldSetLangEnvVariable_cases (env : ref) (h : Heap) :
  shouldSetLangEnvVariable env On h = (Returned true, h)
  /\ shouldSetLangEnvVariable env Off h = (Returned false, h)
  /\ exists b : bool,
       shouldSetLangEnvVariable env Auto h = (Returned b, h)
       /\ (b = true
           <-> ((forall lang, Object.get (deref h env) "LANG" <> VString lang)
                \/ exists lang,
                     Object.get (deref h env) "LANG" = VString lang
                     /\ ~ has_suffix lang ".UTF-8"
                     /\ ~ has_suffix lang ".utf8"
                     /\ ~ has_euc_suffix lang)).
Proof.
  split; [reflexivity|]. split; [reflexivity|].
  unfold shouldSetLangEnvVariable, get_prop, Heap.read. unfold_monad.
  fold (deref h env).
  destruct (Object.get (deref h env) "LANG") as [lang| |] eqn:Hlang;
    eexists; (split; [reflexivity|]).
  - rewrite orb_true_iff, !andb_true_iff, !negb_true_iff.
    rewrite <- !not_true_iff_false, !endsWith_true, search_euc_true.
    split.
    + intros [Hempty | [[Hutf Hutf8] Heuc]]; right; exists lang;
        (split; [reflexivity|]); [|tauto].
      assert (lang = ""%string) as ->.
      { destruct lang; [reflexivity|]. exfalso. apply Hempty. reflexivity. }
      repeat split.
      * intros [pre Hpre]. destruct pre; discriminate Hpre.
      * intros [pre Hpre]. destruct pre; discriminate Hpre.
      * intros (pre & c & rest & Hpre & _). destruct pre; discriminate Hpre.
    + intros [Hnone | (lang' & [= <-] & Hrest)]; [|right; tauto].
      exfalso. now apply (Hnone lang).
  - split; [intros _; left; discriminate | reflexivity].
  - split; [intros _; left; discriminate | reflexivity].
Qed.

Example shouldSetLangEnvVariable_examples :
  shouldSetLangEnvVariable 0 Auto [[("LANG", VString "en_US.UTF-8")]]
  = (Returned false, [[("LANG", VString "en_US.UTF-8")]])
  /\ shouldSetLangEnvVariable 0 Auto [[("LANG", VString "en_US.utf-8")]]
     = (Returned true, [[("LANG", VString "en_US.utf-8")]])
  /\ shouldSetLangEnvVariable 0 Auto [[("LANG", VString "ja_JP.eucJP")]]
     = (Returned false, [[("LANG", VString "ja_JP.eucJP")]])
  /\ shouldSetLangEnvVariable 0 Auto [[]] = (Returned true, [[]])
  /\ shouldSetLangEnvVariable 0 Off [[("LANG", VString "C")]]
     = (Returned false, [[("LANG", VString "C")]]).
Proof. repeat split. Qed.

(** ** getCwd *)

Section CwdProperties.
Context `{StringCase} `{Platform} `{path.Interface}.

Lemma truthy_cwd_explicit shell :
  truthy_cwd (IShellLaunchConfig.cwd shell) = true
  <-> exists unresolved, explicit_cwd shell = Some unresolved.
Proof.
  unfold truthy_cwd, explicit_cwd.
  destruct (IShellLaunchConfig.cwd shell) as [[s|uri]|].
  - destruct (Str.truthy s); split; eauto; try discriminate.
    intros [? [=]].
  - split; eauto.
  - split; [discriminate | intros [? [=]]].
Qed.

Lemma truthy_cwd_none shell :
  truthy_cwd (IShellLaunchConfig.cwd shell) = false
  <-> explicit_cwd shell = None.
Proof.
  unfold truthy_cwd, explicit_cwd.
  destruct (IShellLaunchConfig.cwd shell) as [[s|uri]|].
  - destruct (Str.truthy s); split; congruence.
  - split; discriminate.
  - split; reflexivity.
Qed.

Lemma or_else_empty (a : option string) : or_else a "" = default ""%string a.
Proof.
  destruct a as [[|c a]|]; reflexivity.
Qed.

(** With an explicit cwd: resolve, fall back to the unresolved string,
    sanitize. No call of the log service. *)
Lemma getCwd_explicit shell userHome variableResolver root customCwd
    logService log unresolved :
  explicit_cwd shell = Some unresolved ->
  getCwd shell userHome variableResolver root customCwd logService log
  = (Returned
       (_sanitizeCwd
          match variableResolver with
          | Some resolver =>
              match resolver unresolved with
              | inr resolved => if Str.truthy resolved then resolved else unresolved
              | inl _ => unresolved
              end
          | None => unresolved
          end), log).
Proof.
  intros Hexplicit. unfold getCwd.
  assert (Htruthy : truthy_cwd (IShellLaunchConfig.cwd shell) = true)
    by (apply truthy_cwd_explicit; eauto).
  rewrite Htruthy.
  assert (Hun : match IShellLaunchConfig.cwd shell with
                | Some (inr uri) => fsPath uri
                | Some (inl s) => s
                | None => ""%string
                end = unresolved).
  { unfold explicit_cwd in Hexplicit.
    destruct (IShellLaunchConfig.cwd shell) as [[s|uri]|];
      [destruct (Str.truthy s)|..]; congruence. }
  rewrite Hun. unfold _resolveCwd, logService_error.
  destruct variableResolver as [resolver|]; unfold_monad.
  - destruct (resolver unresolved) as [e|resolved]; [reflexivity|].
    cbn [or_else]. reflexivity.
  - cbn [or_else]. destruct (Str.truthy unresolved); reflexivity.
Qed.

(** Without an explicit cwd: the configured cwd that applies, absolute
    or joined to the root, else the fallback; a resolver failure is
    logged when there is a log service. *)
Lemma getCwd_configured shell userHome variableResolver root customCwd
    logService log :
  explicit_cwd shell = None ->
  getCwd shell userHome variableResolver root customCwd logService log
  = (Returned
       (_sanitizeCwd
          match configured_cwd shell variableResolver customCwd with
          | Some c =>
              if path.isAbsolute c then c
              else
                match root with
                | Some r =>
                    if Str.truthy (path.join [fsPath r; c])
                    then path.join [fsPath r; c]
                    else fallback_cwd root userHome
                | None => fallback_cwd root userHome
                end
          | None => fallback_cwd root userHome
          end),
     match IShellLaunchConfig.ignoreConfigurationCwd shell,
           customCwd, variableResolver, logService with
     | false, Some c, Some resolver, Some _ =>
         match Str.truthy c, resolver c with
         | true, inl e => log ++ [("Could not resolve terminal cwd"%string, e)]
         | _, _ => log
         end
     | _, _, _, _ => log
     end).
Proof.
  intros Hnone%truthy_cwd_none. unfold getCwd. rewrite Hnone.
  unfold configured_cwd, fallback_cwd. rewrite or_else_empty.
  destruct (IShellLaunchConfig.ignoreConfigurationCwd shell); cbn [negb andb].
  { unfold_monad. cbn [truthy_opt negb]. destruct root; reflexivity. }
  destruct customCwd as [c|]; cbn [truthy_opt].
  2:{ unfold_monad. cbn [truthy_opt negb]. destruct root; reflexivity. }
  destruct (Str.truthy c) eqn:Hc.
  2:{ unfold_monad. cbn [truthy_opt negb].
      destruct root, variableResolver, logService; reflexivity. }
  unfold _resolveCwd, logService_error.
  destruct variableResolver as [resolver|]; unfold_monad; cbn [default from_option id].
  - destruct (resolver c) as [e|c'].
    + destruct logService; cbn [truthy_opt negb]; destruct root; reflexivity.
    + cbn [truthy_opt default from_option id]. destruct (Str.truthy c') eqn:Hc'.
      * destruct (path.isAbsolute c').
        -- cbn [truthy_opt default from_option id]. rewrite Hc'. cbn [negb].
           destruct logService; reflexivity.
        -- destruct root as [r|]; cbn [truthy_opt default from_option id negb].
           ++ destruct (Str.truthy (path.join [fsPath r; c']));
                destruct logService; reflexivity.
           ++ destruct logService; reflexivity.
      * cbn [truthy_opt negb]. destruct root, logService; reflexivity.
  - cbn [truthy_opt default from_option id]. rewrite Hc.
    destruct (path.isAbsolute c).
    + cbn [truthy_opt default from_option id]. rewrite Hc. cbn [negb].
      destruct logService; reflexivity.
    + destruct root as [r|]; cbn [truthy_opt default from_option id negb].
      * destruct (Str.truthy (path.join [fsPath r; c]));
          destruct logService; reflexivity.
      * destruct logService; reflexivity.
Qed.

Lemma explicit_cwd_cases shell :
  (exists unresolved, explicit_cwd shell = Some unresolved)
  \/ explicit_cwd shell = None.
Proof. destruct (explicit_cwd shell); eauto. Qed.

Lemma _sanitizeCwd_drive (c0 : ascii) (rest : string) :
  OS = Windows ->
  _sanitizeCwd (String c0 (String ":" rest))
  = toUpperCase (String c0 "") +:+ String ":" rest.
Proof. intros HOS. unfold _sanitizeCwd. rewrite HOS. reflexivity. Qed.

Lemma _sanitizeCwd_unchanged (s : string) :
  OS <> Windows \/ Str.at_ s 1 <> Some ":"%char ->
  _sanitizeCwd s = s.
Proof.
  intros Hcase. unfold _sanitizeCwd.
  destruct (OperatingSystem_eqb OS Windows) eqn:HOS; [|reflexivity].
  destruct (Str.truthy s); [|reflexivity]. cbn [andb].
  destruct (Str.at_ s 1) as [c|]; [|reflexivity].
  destruct (Ascii.eqb_spec c ":") as [->|Hne]; [|reflexivity].
  destruct Hcase as [Hos | Hat]; [|congruence].
  destruct OS; try discriminate HOS. congruence.
Qed.

End CwdProperties.

(** C6: when the launch config has no explicit cwd, getCwd uses the
    configured cwd unless the launch config opts out ([configured_cwd]):
    an absolute one as it is (first part), a relative one joined to the
    workspace root when a root is known (second part); when no configured
    cwd applies, the result is the workspace root path, else the user home
    path, else the empty string (third part). Every value getCwd returns,
    with or without an explicit cwd, is a sanitized one (fourth part),
    where sanitizing on Windows puts the first character of a string whose
    second character is [:] in upper case (fifth part) and otherwise
    returns the string unchanged (sixth part). *)
Theorem getCwd_configuration_precedence
    `{StringCase} `{Platform} `{path.Interface}
    (shell : IShellLaunchConfig.t) (userHome : option string)
    (variableResolver : option VariableResolver) (root : option Uri)
    (customCwd : option string) (logService : option ILogService) (log : Log) :
  let result :=
    (getCwd shell userHome variableResolver root customCwd logService log).1 in
  let configured := configured_cwd shell variableResolver customCwd in
  (forall c,
      explicit_cwd shell = None ->
      configured = Some c -> path.isAbsolute c = true ->
      result = Returned (_sanitizeCwd c))
  /\ (forall c r,
         explicit_cwd shell = None ->
         configured = Some c -> path.isAbsolute c = false ->
         root = Some r -> path.join [fsPath r; c] <> ""%string ->
         result = Returned (_sanitizeCwd (path.join [fsPath r; c])))
  /\ (explicit_cwd shell = None ->
      configured = None
      \/ (exists c, configured = Some c /\ path.isAbsolute c = false /\ root = None) ->
      result = Returned (_sanitizeCwd (fallback_cwd root userHome)))
  /\ (exists s, result = Returned (_sanitizeCwd s))
  /\ (OS = Windows ->
      forall (c0 : ascii) (rest : string),
        _sanitizeCwd (String c0 (String ":" rest))
        = toUpperCase (String c0 "") +:+ String ":" rest)
  /\ (forall s,
         OS <> Windows \/ Str.at_ s 1 <> Some ":"%char ->
         _sanitizeCwd s = s).
Proof.
  intros result configured. subst result configured.
  repeat apply conj.
  - intros c Hnone Hconf Habs.
    rewrite (getCwd_configured _ _ _ _ _ _ _ Hnone), Hconf, Habs. reflexivity.
  - intros c r Hnone Hconf Habs -> Hjoin.
    rewrite (getCwd_configured _ _ _ _ _ _ _ Hnone), Hconf, Habs. cbn [fst].
    destruct (path.join [fsPath r; c]) eqn:Hj; [contradiction|reflexivity].
  - intros Hnone Hcase.
    rewrite (getCwd_configured _ _ _ _ _ _ _ Hnone).
    destruct Hcase as [-> | (c & -> & -> & ->)]; reflexivity.
  - destruct (explicit_cwd_cases shell) as [[unresolved Hex] | Hnone].
    + rewrite (getCwd_explicit _ _ _ _ _ _ _ _ Hex). eauto.
    + rewrite (getCwd_configured _ _ _ _ _ _ _ Hnone). eauto.
  - intros HOS c0 rest. now apply _sanitizeCwd_drive.
  - apply _sanitizeCwd_unchanged.
Qed.

(** On Windows, the configured [proj] under the root [c:/w]: joined to the
    root, and the drive letter comes out in upper case. *)
Lemma getCwd_configuration_precedence_witness :
  (@getCwd AsciiCase.instance Run.windows Run.slash_path
     {| IShellLaunchConfig.cwd := None; IShellLaunchConfig.env := None;
        IShellLaunchConfig.strictEnv := false;
        IShellLaunchConfig.ignoreConfigurationCwd := false |}
     (Some "/home/u") None (Some {| fsPath := "c:/w" |}) (Some "proj") None []).1
  = Returned "C:/w/proj"%string.
Proof.
  destruct (@getCwd_configuration_precedence
              AsciiCase.instance Run.windows Run.slash_path
              {| IShellLaunchConfig.cwd := None; IShellLaunchConfig.env := None;
                 IShellLaunchConfig.strictEnv := false;
                 IShellLaunchConfig.ignoreConfigurationCwd := false |}
              (Some "/home/u") None (Some {| fsPath := "c:/w" |})
              (Some "proj") None [])
    as (_ & Hjoined & _).
  rewrite (Hjoined "proj"%string {| fsPath := "c:/w" |}
             eq_refl eq_refl eq_refl eq_refl ltac:(discriminate)).
  reflexivity.
Defined.

(** C7: a variable-resolver exception inside getCwd does not reach the
    caller: getCwd returns for every resolver (first part). When the
    launch config carries an explicit cwd and the resolver throws on it,
    the unresolved string is sanitized and returned, and nothing is logged
    (second part). When there is no explicit cwd and the resolver throws
    on the configured cwd, the failure goes to the log service, if one is
    given, and the result is the fallback: the workspace root path, else
    the user home path, else the empty string (third part). *)
Theorem getCwd_resolver_failure
    `{StringCase} `{Platform} `{path.Interface}
    (shell : IShellLaunchConfig.t) (userHome : option string)
    (variableResolver : option VariableResolver) (root : option Uri)
    (customCwd : option string) (logService : option ILogService) (log : Log) :
  (exists cwd log',
      getCwd shell userHome variableResolver root customCwd logService log
      = (Returned cwd, log'))
  /\ (forall resolver unresolved e,
         variableResolver = Some resolver ->
         explicit_cwd shell = Some unresolved ->
         resolver unresolved = inl e ->
         getCwd shell userHome variableResolver root customCwd logService log
         = (Returned (_sanitizeCwd unresolved), log))
  /\ (forall resolver configured e,
         variableResolver = Some resolver ->
         explicit_cwd shell = None ->
         IShellLaunchConfig.ignoreConfigurationCwd shell = false ->
         customCwd = Some configured -> configured <> ""%string ->
         resolver configured = inl e ->
         getCwd shell userHome variableResolver root customCwd logService log
         = (Returned (_sanitizeCwd (fallback_cwd root userHome)),
            match logService with
            | Some _ => log ++ [("Could not resolve terminal cwd"%string, e)]
            | None => log
            end)).
Proof.
  repeat apply conj.
  - destruct (explicit_cwd_cases shell) as [[unresolved Hex] | Hnone].
    + rewrite (getCwd_explicit _ _ _ _ _ _ _ _ Hex). eauto.
    + rewrite (getCwd_configured _ _ _ _ _ _ _ Hnone). eauto.
  - intros resolver unresolved e -> Hex Hthrow.
    rewrite (getCwd_explicit _ _ _ _ _ _ _ _ Hex), Hthrow. reflexivity.
  - intros resolver configured e -> Hnone Hignore -> Hne Hthrow.
    rewrite (getCwd_configured _ _ _ _ _ _ _ Hnone).
    unfold configured_cwd. rewrite Hignore, Hthrow.
    destruct configured as [|c configured]; [contradiction|].
    cbn [Str.truthy String.eqb negb]. destruct logService; reflexivity.
Qed.

(** A resolver that always throws: the explicit [/tmp/x] is returned as it
    is, and the configured [proj] gives way to the user home, with the
    failure in the log. *)
Lemma getCwd_resolver_failure_witness :
  @getCwd AsciiCase.instance Run.linux Run.slash_path
    {| IShellLaunchConfig.cwd := Some (inl "/tmp/x"%string);
       IShellLaunchConfig.env := None;
       IShellLaunchConfig.strictEnv := false;
       IShellLaunchConfig.ignoreConfigurationCwd := false |}
    None (Some (fun _ => inl (Error "unresolved"))) None None (Some LogService) []
  = (Returned "/tmp/x"%string, [])
  /\ @getCwd AsciiCase.instance Run.linux Run.slash_path
       {| IShellLaunchConfig.cwd := None;
          IShellLaunchConfig.env := None;
          IShellLaunchConfig.strictEnv := false;
          IShellLaunchConfig.ignoreConfigurationCwd := false |}
       (Some "/home/u"%string) (Some (fun _ => inl (Error "unresolved")))
       None (Some "proj"%string) (Some LogService) []
     = (Returned "/home/u"%string,
        [("Could not resolve terminal cwd"%string, Error "unresolved")]).
Proof.
  split.
  - destruct (@getCwd_resolver_failure
                AsciiCase.instance Run.linux Run.slash_path
                {| IShellLaunchConfig.cwd := Some (inl "/tmp/x"%string);
                   IShellLaunchConfig.env := None;
                   IShellLaunchConfig.strictEnv := false;
                   IShellLaunchConfig.ignoreConfigurationCwd := false |}
                None (Some (fun _ => inl (Error "unresolved"))) None None
                (Some LogService) [])
      as (_ & Hexplicit & _).
    rewrite (Hexplicit _ "/tmp/x"%string (Error "unresolved")
               eq_refl eq_refl eq_refl).
    reflexivity.
  - destruct (@getCwd_resolver_failure
                AsciiCase.instance Run.linux Run.slash_path
                {| IShellLaunchConfig.cwd := None;
                   IShellLaunchConfig.env := None;
                   IShellLaunchConfig.strictEnv := false;
                   IShellLaunchConfig.ignoreConfigurationCwd := false |}
                (Some "/home/u"%string) (Some (fun _ => inl (Error "unresolved")))
                None (Some "proj"%string) (Some LogService) [])
      as (_ & _ & Hconfigured).
    rewrite (Hconfigured _ "proj"%string (Error "unresolved")
               eq_refl eq_refl eq_refl eq_refl ltac:(discriminate) eq_refl).
    reflexivity.
Defined.

(** ** Objects *)

Section ObjectProperties.
Implicit Types (o : Obj) (k : string) (v : Value).

Lemma has_keys o k : Object.has o k = true <-> In k (Object.keys o).
Proof.
  induction o as [|[k' v'] o IH]; simpl; [split; [discriminate|tauto]|].
  rewrite orb_true_iff, IH, String.eqb_eq. reflexivity.
Qed.

Lemma has_false_keys o k : Object.has o k = false <-> ~ In k (Object.keys o).
Proof. rewrite <- has_keys. destruct (Object.has o k); split; congruence. Qed.

Lemma get_absent o k : ~ In k (Object.keys o) -> Object.get o k = VUndefined.
Proof.
  induction o as [|[k' v'] o IH]; simpl; [reflexivity|].
  intros Hnotin. destruct (String.eqb_spec k' k) as [->|Hne]; [tauto|].
  apply IH. tauto.
Qed.

(** *** An own property is updated where it is *)

Lemma get_update_eq o k v :
  Object.has o k = true -> Object.get (Object.update o k v) k = v.
Proof.
  induction o as [|[k' v'] o IH]; simpl; [discriminate|].
  destruct (String.eqb_spec k' k) as [->|Hne]; simpl.
  - now rewrite String.eqb_refl.
  - destruct (String.eqb_spec k' k); [contradiction|exact IH].
Qed.

Lemma get_update_ne o k k' v :
  k <> k' -> Object.get (Object.update o k v) k' = Object.get o k'.
Proof.
  intros Hne. induction o as [|[k0 v0] o IH]; simpl; [reflexivity|].
  destruct (String.eqb_spec k0 k) as [->|Hne0]; simpl.
  - destruct (String.eqb_spec k k'); [contradiction|reflexivity].
  - now rewrite IH.
Qed.

Lemma keys_update o k v : Object.keys (Object.update o k v) = Object.keys o.
Proof.
  induction o as [|[k' v'] o IH]; simpl; [reflexivity|].
  destruct (String.eqb k' k); simpl; [reflexivity|now rewrite IH].
Qed.

Lemma has_update o k k' v :
  Object.has (Object.update o k v) k' = Object.has o k'.
Proof.
  induction o as [|[k0 v0] o IH]; simpl; [reflexivity|].
  destruct (String.eqb k0 k); simpl; [reflexivity|now rewrite IH].
Qed.

(** *** A new array index goes among the array indices *)

Lemma insert_split o n k v :
  exists a b, o = a ++ b /\ Object.insert o n k v = a ++ (k, v) :: b.
Proof.
  induction o as [|[k' v'] o IH]; simpl.
  - now exists [], [].
  - destruct (Object.index k') as [n'|]; [|now exists [], ((k', v') :: o)].
    destruct (n' <? n)%N; [|now exists [], ((k', v') :: o)].
    destruct IH as (a & b & Ho & Hinsert).
    exists ((k', v') :: a), b. simpl. now rewrite Hinsert, <- Ho.
Qed.

Lemma get_middle_eq (a b : Obj) k v :
  ~ In k (Object.keys a) -> Object.get (a ++ (k, v) :: b) k = v.
Proof.
  induction a as [|[k' v'] a IH]; simpl.
  - now rewrite String.eqb_refl.
  - intros Hnotin. destruct (String.eqb_spec k' k) as [->|Hne]; [tauto|].
    apply IH. tauto.
Qed.

Lemma get_middle_ne (a b : Obj) k k' v :
  k <> k' -> Object.get (a ++ (k, v) :: b) k' = Object.get (a ++ b) k'.
Proof.
  intros Hne. induction a as [|[k0 v0] a IH]; simpl.
  - destruct (String.eqb_spec k k'); [contradiction|reflexivity].
  - now rewrite IH.
Qed.

Lemma has_middle (a b : Obj) k k' v :
  Object.has (a ++ (k, v) :: b) k' = String.eqb k k' || Object.has (a ++ b) k'.
Proof.
  induction a as [|[k0 v0] a IH]; simpl; [reflexivity|].
  rewrite IH. now destruct (String.eqb k0 k'), (String.eqb k k').
Qed.

(** *** Assignment *)

(** The three cases of an assignment [o[k] = v]. *)
Lemma set_cases o k v :
  (Object.has o k = true /\ Object.set o k v = Object.update o k v)
  \/ (Object.has o k = false /\ k = "__proto__"%string /\ Object.set o k v = o)
  \/ (Object.has o k = false /\ k <> "__proto__"%string
      /\ exists a b, o = a ++ b /\ Object.set o k v = a ++ (k, v) :: b).
Proof.
  unfold Object.set. destruct (Object.has o k) eqn:Hhas; [now left|].
  right. destruct (String.eqb_spec k "__proto__") as [->|Hne]; [now left|].
  right. repeat split; [assumption|].
  destruct (Object.index k) as [n|]; [apply insert_split|].
  exists o, []. now rewrite app_nil_r.
Qed.

Lemma set_own o k v :
  Object.has o k = true -> Object.set o k v = Object.update o k v.
Proof. intros Hhas. unfold Object.set. now rewrite Hhas. Qed.

(** [__proto__], not an own property: the assignment stores nothing. *)
Lemma set_proto o v :
  Object.has o "__proto__" = false -> Object.set o "__proto__" v = o.
Proof. intros Hhas. unfold Object.set. now rewrite Hhas. Qed.

Lemma get_set_own o k v :
  Object.has o k = true -> Object.get (Object.set o k v) k = v.
Proof. intros Hhas. rewrite set_own by assumption. now apply get_update_eq. Qed.

Lemma get_set_eq o k v :
  k <> "__proto__"%string -> Object.get (Object.set o k v) k = v.
Proof.
  intros Hk.
  destruct (set_cases o k v)
    as [[Hhas ->] | [(_ & -> & _) | (Hhas & _ & a & b & -> & ->)]].
  - now apply get_update_eq.
  - contradiction.
  - apply get_middle_eq. apply has_false_keys in Hhas.
    unfold Object.keys in *. rewrite map_app, in_app_iff in Hhas. tauto.
Qed.

Lemma get_set_ne o k k' v :
  k <> k' -> Object.get (Object.set o k v) k' = Object.get o k'.
Proof.
  intros Hne.
  destruct (set_cases o k v)
    as [[Hhas ->] | [(_ & _ & ->) | (Hhas & _ & a & b & -> & ->)]].
  - now apply get_update_ne.
  - reflexivity.
  - now apply get_middle_ne.
Qed.


Lemma get_delete_ne o k k' :
  k <> k' -> Object.get (Object.delete o k) k' = Object.get o k'.
Proof.
  intros Hne. unfold Object.delete.
  induction o as [|[k0 v0] o IH]; simpl; [reflexivity|].
  destruct (String.eqb_spec k0 k) as [->|Hne0]; simpl.
  - destruct (String.eqb_spec k k'); [contradiction|exact IH].
  - now rewrite IH.
Qed.

Lemma has_set_own o k v :
  Object.has o k = true -> Object.has (Object.set o k v) k = true.
Proof. intros Hhas. now rewrite set_own, has_update. Qed.

Lemma has_set_eq o k v :
  k <> "__proto__"%string -> Object.has (Object.set o k v) k = true.
Proof.
  intros Hk.
  destruct (set_cases o k v)
    as [[Hhas ->] | [(_ & -> & _) | (Hhas & _ & a & b & -> & ->)]].
  - now rewrite has_update.
  - contradiction.
  - now rewrite has_middle, String.eqb_refl.
Qed.

Lemma has_set_ne o k k' v :
  k <> k' -> Object.has (Object.set o k v) k' = Object.has o k'.
Proof.
  intros Hne.
  destruct (set_cases o k v)
    as [[Hhas ->] | [(_ & _ & ->) | (Hhas & _ & a & b & -> & ->)]].
  - apply has_update.
  - reflexivity.
  - rewrite has_middle. now destruct (String.eqb_spec k k').
Qed.

Lemma get_set_assignable o k v :
  assignable o k = true -> Object.get (Object.set o k v) k = v.
Proof.
  intros [Hk%negb_true_iff%String.eqb_neq | Hown]%orb_true_iff;
    [now apply get_set_eq | now apply get_set_own].
Qed.

Lemma has_set_assignable o k v :
  assignable o k = true -> Object.has (Object.set o k v) k = true.
Proof.
  intros [Hk%negb_true_iff%String.eqb_neq | Hown]%orb_true_iff;
    [now apply has_set_eq | now apply has_set_own].
Qed.

Lemma set_not_assignable o k v :
  assignable o k = false -> Object.set o k v = o.
Proof.
  intros [Hk%negb_false_iff%String.eqb_eq Hown]%orb_false_iff.
  subst k. now apply set_proto.
Qed.


Lemma has_delete_ne o k k' :
  k <> k' -> Object.has (Object.delete o k) k' = Object.has o k'.
Proof.
  intros Hne. unfold Object.delete.
  induction o as [|[k0 v0] o IH]; simpl; [reflexivity|].
  destruct (String.eqb_spec k0 k) as [->|Hne0]; simpl.
  - destruct (String.eqb_spec k k'); [contradiction|exact IH].
  - now rewrite IH.
Qed.





Lemma all_strings_set o k v :
  all_strings o -> isString v = true -> all_strings (Object.set o k v).
Proof.
  unfold all_strings. intros Ho Hv.
  destruct (set_cases o k v)
    as [[Hhas ->] | [(_ & _ & ->) | (Hhas & _ & a & b & -> & ->)]].
  - clear Hhas. induction o as [|[k' v'] o IH]; simpl; [constructor|].
    apply Forall_cons in Ho as [Hv' Ho].
    destruct (String.eqb k' k); constructor; auto.
  - exact Ho.
  - apply Forall_app in Ho as [Ha Hb]. apply Forall_app. split; [exact Ha|].
    now constructor.
Qed.

Lemma all_strings_delete o k : all_strings o -> all_strings (Object.delete o k).
Proof.
  unfold all_strings, Object.delete. rewrite !Forall_forall.
  intros Ho kv Hin%list_elem_of_In%filter_In. apply Ho, list_elem_of_In, Hin.
Qed.

End ObjectProperties.

(** ** The store *)

Lemma deref_insert_eq (h : Heap) (r : ref) (o : Obj) :
  r < length h -> deref (<[r := o]> h) r = o.
Proof. intros Hr. unfold deref. now rewrite list_lookup_insert_eq. Qed.

Lemma deref_insert_ne (h : Heap) (r r' : ref) (o : Obj) :
  r <> r' -> deref (<[r := o]> h) r' = deref h r'.
Proof. intros Hne. unfold deref. now rewrite list_lookup_insert_ne. Qed.

Lemma insert_deref (h : Heap) (r : ref) : <[r := deref h r]> h = h.
Proof.
  unfold deref. destruct (h !! r) as [o|] eqn:Hr.
  - now apply list_insert_id.
  - apply list_insert_ge. now apply lookup_ge_None.
Qed.

Lemma Object_keys_run (o : ref) (h : Heap) :
  Object_keys o h = (Returned (Object.keys (deref h o)), h).
Proof. reflexivity. Qed.

Lemma get_prop_run (o : ref) (k : string) (h : Heap) :
  get_prop o k h = (Returned (Object.get (deref h o) k), h).
Proof. reflexivity. Qed.

Lemma set_prop_run (o : ref) (k : string) (v : Value) (h : Heap) :
  set_prop o k v h = (Returned tt, <[o := Object.set (deref h o) k v]> h).
Proof. reflexivity. Qed.

Lemma delete_prop_run (o : ref) (k : string) (h : Heap) :
  delete_prop o k h = (Returned tt, <[o := Object.delete (deref h o) k]> h).
Proof. reflexivity. Qed.

(** A loop whose body updates one object of the store, whatever that
    object holds at the time: the loop folds the update over the list. *)
Lemma forEach_update {A} (r : ref) (step : A -> Obj -> Obj)
    (body : A -> M Heap unit) (l : list A) (h : Heap) :
  (forall x o, body x (<[r := o]> h) = (Returned tt, <[r := step x o]> h)) ->
  forall o,
    forEach l body (<[r := o]> h)
    = (Returned tt, <[r := fold_left (fun o x => step x o) l o]> h).
Proof.
  intros Hbody. induction l as [|x l IH]; intros o; simpl.
  - reflexivity.
  - rewrite (bind_Returned _ _ _ _ _ (Hbody x o)). apply IH.
Qed.


Section Runs.
Context `{StringCase} `{Platform} `{Processes}.

Ltac store :=
  rewrite ?deref_insert_eq, ?deref_insert_ne, ?list_insert_insert_eq
    by (assumption || congruence || lia).

(** A loop over the names of an object, updating [env]. *)
Lemma forEach_update_deref {A} (env : ref) (step : A -> Obj -> Obj)
    (body : A -> M Heap unit) (l : list A) (h : Heap) :
  (forall x o, body x (<[env := o]> h) = (Returned tt, <[env := step x o]> h)) ->
  forEach l body h
  = (Returned tt, <[env := fold_left (fun o x => step x o) l (deref h env)]> h).
Proof.
  intros Hbody.
  pose proof (forEach_update env step body l h Hbody (deref h env)) as Hloop.
  now rewrite insert_deref in Hloop.
Qed.

Lemma mergeNonNullKeys_run (env other : ref) (h : Heap) :
  env <> other -> env < length h ->
  mergeNonNullKeys env (Some other) h
  = (Returned tt,
     <[env := Pure.mergeNonNullKeys (deref h env) (deref h other)]> h).
Proof.
  intros Hne Hlt. unfold mergeNonNullKeys, Pure.mergeNonNullKeys.
  rewrite (bind_Returned _ _ _ _ _ (Object_keys_run other h)).
  apply forEach_update_deref with
    (step := fun key env =>
               if truthy (Object.get (deref h other) key)
               then Object.set env key (Object.get (deref h other) key)
               else env).
  intros key o.
  rewrite (bind_Returned _ _ _ _ _ (get_prop_run _ _ _)). store.
  destruct (truthy _); [|reflexivity].
  rewrite set_prop_run. store. reflexivity.
Qed.

Lemma resolveConfigurationVariables_run variableResolver (env : ref) (h : Heap) :
  env < length h ->
  resolveConfigurationVariables variableResolver env h
  = (Returned env,
     <[env := Pure.resolveConfigurationVariables variableResolver (deref h env)]> h).
Proof.
  intros Hlt.
  unfold resolveConfigurationVariables, Pure.resolveConfigurationVariables.
  rewrite (bind_Returned _ _ _ _ _ (Object_keys_run env h)).
  erewrite bind_Returned; [reflexivity|].
  apply forEach_update_deref with
    (step := fun key env =>
               match Object.get env key with
               | VString s =>
                   Object.set env key (Pure.resolveValue variableResolver (VString s))
               | _ => env
               end).
  intros key o.
  rewrite (bind_Returned _ _ _ _ _ (get_prop_run _ _ _)). store.
  destruct (Object.get o key) as [s| |]; try reflexivity.
  unfold try_catch, call, Pure.resolveValue.
  destruct (variableResolver s) as [e|resolved].
  - unfold bind, throw. rewrite set_prop_run. store. reflexivity.
  - unfold bind, ret. rewrite set_prop_run. store. reflexivity.
Qed.

Lemma sanitizeProcessEnvironment_run (env : ref) (names : list string) (h : Heap) :
  env < length h ->
  sanitizeProcessEnvironment env names h
  = (Returned tt,
     <[env := Pure.sanitizeProcessEnvironment (deref h env) names]> h).
Proof.
  intros Hlt.
  unfold sanitizeProcessEnvironment, Pure.sanitizeProcessEnvironment.
  rewrite (bind_Returned _ _ _ _ _ (Object_keys_run env h)).
  apply forEach_update_deref with
    (step := fun key env =>
               if undesirable key || existsb (String.eqb key) names
               then Object.delete env key
               else env).
  intros key o. destruct (_ || _); [|reflexivity].
  rewrite delete_prop_run. store. reflexivity.
Qed.

Lemma _mergeEnvironmentValue_run (env : ref) key value (h : Heap) :
  _mergeEnvironmentValue env key value h
  = (Returned tt,
     <[env := Pure.mergeEnvironmentValue (deref h env) key value]> h).
Proof. destruct value; reflexivity. Qed.

Lemma mergeEnvironments_run (parent other : ref) (h : Heap) :
  parent <> other -> parent < length h ->
  mergeEnvironments parent (Some other) h
  = (Returned tt,
     <[parent := Pure.mergeEnvironments (deref h parent) (deref h other)]> h).
Proof.
  intros Hne Hlt. unfold mergeEnvironments, Pure.mergeEnvironments.
  assert (Hbody : forall key o,
    bind (get_prop other key)
      (fun value =>
         match value with
         | VUndefined => ret tt
         | _ => _mergeEnvironmentValue parent
                  (Pure.actualKey (deref (<[parent := o]> h) parent) key) value
         end) (<[parent := o]> h)
    = (Returned tt,
       <[parent := Pure.mergeEnvironments_step (deref h other) key o]> h)).
  { intros key o.
    rewrite (bind_Returned _ _ _ _ _ (get_prop_run _ _ _)). store.
    unfold Pure.mergeEnvironments_step.
    destruct (Object.get (deref h other) key) as [s| |] eqn:Hv;
      rewrite ?_mergeEnvironmentValue_run; store; reflexivity. }
  unfold Pure.actualKey in Hbody.
  destruct isWindows;
    rewrite (bind_Returned _ _ _ _ _ (Object_keys_run other h));
    apply forEach_update_deref with
      (step := Pure.mergeEnvironments_step (deref h other));
    intros key o; [|apply Hbody].
  rewrite (bind_Returned _ _ _ _ _ (Object_keys_run _ _)). apply Hbody.
Qed.

End Runs.

(** The store, two allocations later. *)
Section StoreGrowth.
Implicit Types (h : Heap) (o a b : Obj) (r : ref).

Lemma deref_app_l h (l : Heap) r : r < length h -> deref (h ++ l) r = deref h r.
Proof. intros Hr. unfold deref. now rewrite lookup_app_l. Qed.

Lemma deref_app_here h o (l : Heap) : deref (h ++ o :: l) (length h) = o.
Proof. unfold deref. now rewrite list_lookup_middle. Qed.

Lemma deref_app_next h a o (l : Heap) :
  deref (h ++ a :: o :: l) (S (length h)) = o.
Proof.
  unfold deref.
  replace (h ++ a :: o :: l) with ((h ++ [a]) ++ o :: l)
    by now rewrite <- app_assoc.
  rewrite list_lookup_middle; [reflexivity|].
  rewrite length_app. simpl. lia.
Qed.

Lemma insert_app_here h a o (l : Heap) :
  <[length h := o]> (h ++ a :: l) = h ++ o :: l.
Proof.
  rewrite insert_app_r_alt by lia. now rewrite Nat.sub_diag.
Qed.

Lemma insert_app_next h a b o (l : Heap) :
  <[S (length h) := o]> (h ++ a :: b :: l) = h ++ a :: o :: l.
Proof.
  rewrite insert_app_r_alt by lia.
  now replace (S (length h) - length h) with 1 by lia.
Qed.

Lemma insert_app_before h (l : Heap) r o :
  r < length h -> <[r := o]> (h ++ l) = <[r := o]> h ++ l.
Proof. intros Hr. now apply insert_app_l. Qed.

End StoreGrowth.

Section CreateTerminalEnvironmentRuns.
Context `{StringCase} `{Platform} `{Processes}.

Lemma shouldSetLangEnvVariable_run (env : ref) detectLocale (h : Heap) :
  shouldSetLangEnvVariable env detectLocale h
  = (Returned (Pure.shouldSetLangEnvVariable (deref h env) detectLocale), h).
Proof. destruct detectLocale; reflexivity. Qed.

Lemma addTerminalEnvironmentKeys_run (env : ref) version locale detectLocale
    (h : Heap) :
  env < length h ->
  addTerminalEnvironmentKeys env version locale detectLocale h
  = (Returned tt,
     <[env := Pure.addTerminalEnvironmentKeys (deref h env) version locale
                detectLocale]> h).
Proof.
  intros Hlt.
  unfold addTerminalEnvironmentKeys, Pure.addTerminalEnvironmentKeys.
  rewrite (bind_Returned _ _ _ _ _ (set_prop_run _ _ _ _)).
  set (e1 := Object.set (deref h env) "TERM_PROGRAM" (VString "vscode")).
  set (e2 := match version with
             | Some version =>
                 if Str.truthy version
                 then Object.set e1 "TERM_PROGRAM_VERSION" (VString version)
                 else e1
             | None => e1
             end).
  assert (Hversion :
    match version with
    | Some version =>
        if Str.truthy version
        then set_prop env "TERM_PROGRAM_VERSION" (VString version)
        else ret tt
    | None => ret tt
    end (<[env := e1]> h) = (Returned tt, <[env := e2]> h)).
  { subst e2. destruct version as [version|]; [|reflexivity].
    destruct (Str.truthy version); [|reflexivity].
    rewrite set_prop_run, deref_insert_eq, list_insert_insert_eq by assumption.
    reflexivity. }
  rewrite (bind_Returned _ _ _ _ _ Hversion).
  rewrite (bind_Returned _ _ _ _ _ (shouldSetLangEnvVariable_run _ _ _)).
  rewrite deref_insert_eq by assumption.
  destruct (Pure.shouldSetLangEnvVariable e2 detectLocale).
  - erewrite bind_Returned by apply set_prop_run.
    rewrite set_prop_run.
    rewrite !deref_insert_eq, !list_insert_insert_eq
      by (rewrite ?length_insert; assumption).
    reflexivity.
  - erewrite bind_Returned by reflexivity.
    rewrite set_prop_run, deref_insert_eq, list_insert_insert_eq by assumption.
    reflexivity.
Qed.

(** Strict mode: one new object, filled from the launch config's own
    overlay; the rest of the store as it was. *)
Lemma createTerminalEnvironment_strict_run shellLaunchConfig envFromConfig
    variableResolver version detectLocale baseEnv (h : Heap) :
  IShellLaunchConfig.strictEnv shellLaunchConfig = true ->
  (forall shellEnv, IShellLaunchConfig.env shellLaunchConfig = Some shellEnv ->
                    shellEnv < length h) ->
  createTerminalEnvironment shellLaunchConfig envFromConfig variableResolver
    version detectLocale baseEnv h
  = (Returned (length h),
     h ++ [match IShellLaunchConfig.env shellLaunchConfig with
           | Some shellEnv => Pure.mergeNonNullKeys [] (deref h shellEnv)
           | None => []
           end]).
Proof.
  intros Hstrict Hvalid. unfold createTerminalEnvironment.
  rewrite (bind_Returned _ _ h (length h) (h ++ [[]])) by reflexivity.
  rewrite Hstrict.
  destruct (IShellLaunchConfig.env shellLaunchConfig) as [shellEnv|].
  - specialize (Hvalid shellEnv eq_refl).
    erewrite bind_Returned
      by (apply mergeNonNullKeys_run; rewrite ?length_app; simpl; lia).
    rewrite deref_app_here, deref_app_l, insert_app_here by assumption.
    reflexivity.
  - reflexivity.
Qed.

End CreateTerminalEnvironmentRuns.

(** ** createTerminalEnvironment, outside strict mode *)

Section Pipeline.
Context `{StringCase} `{Platform} `{Processes}.

Lemma length_store_resolved variableResolver shellEnv (h : Heap) :
  length (store_resolved variableResolver shellEnv h) = length h.
Proof. destruct shellEnv; simpl; [apply length_insert|reflexivity]. Qed.

(** The resolution step: the copy of the configured overlay at
    [allowedEnvFromConfig], then the launch config's own overlay. *)
Lemma resolve_step_run variableResolver shellEnv (h : Heap) (env copy : Obj)
    (allowedEnvFromConfig : ref) :
  allowedEnvFromConfig = S (length h) ->
  (forall r, shellEnv = Some r -> r < length h) ->
  match variableResolver with
  | Some variableResolver =>
      do _ <- resolveConfigurationVariables variableResolver allowedEnvFromConfig ;
      match shellEnv with
      | Some shellEnv =>
          do _ <- resolveConfigurationVariables variableResolver shellEnv ;
          ret tt
      | None => ret tt
      end
  | None => ret tt
  end (h ++ [env; copy])
  = (Returned tt,
     match variableResolver with
     | Some _ => store_resolved variableResolver shellEnv h
     | None => h
     end ++ [env; resolved variableResolver copy]).
Proof.
  intros -> Hvalid. destruct variableResolver as [resolver|]; [|reflexivity].
  erewrite bind_Returned
    by (apply resolveConfigurationVariables_run; rewrite length_app; simpl; lia).
  rewrite deref_app_next, insert_app_next.
  destruct shellEnv as [shellEnv|]; [|reflexivity].
  specialize (Hvalid shellEnv eq_refl).
  erewrite bind_Returned
    by (apply resolveConfigurationVariables_run; rewrite length_app; simpl; lia).
  rewrite deref_app_l, insert_app_before by assumption. reflexivity.
Qed.

(** The rest of the pipeline, on the new environment [env]. *)
Lemma merge_steps_run shellEnv (h : Heap) (e copy : Obj) (env allowed : ref)
    version detectLocale :
  env = length h -> allowed = S (length h) ->
  (forall r, shellEnv = Some r -> r < length h) ->
  (do _ <- sanitizeProcessEnvironment env ["VSCODE_IPC_HOOK_CLI"%string] ;
   do _ <- mergeEnvironments env (Some allowed) ;
   do _ <- mergeEnvironments env shellEnv ;
   do _ <- addTerminalEnvironmentKeys env version locale detectLocale ;
   ret env) (h ++ [e; copy])
  = (Returned env,
     h ++ [Pure.addTerminalEnvironmentKeys
             (let env :=
                Pure.mergeEnvironments
                  (Pure.sanitizeProcessEnvironment e ["VSCODE_IPC_HOOK_CLI"%string])
                  copy in
              match shellEnv with
              | Some r => Pure.mergeEnvironments env (deref h r)
              | None => env
              end)
             version locale detectLocale;
           copy]).
Proof.
  intros -> -> Hvalid.
  assert (Hlen : forall a b : Obj, length h < length (h ++ [a; b]))
    by (intros; rewrite length_app; simpl; lia).
  erewrite bind_Returned by (apply sanitizeProcessEnvironment_run, Hlen).
  rewrite deref_app_here, insert_app_here.
  erewrite bind_Returned by (apply mergeEnvironments_run; [lia|apply Hlen]).
  rewrite deref_app_here, deref_app_next, insert_app_here.
  destruct shellEnv as [r|].
  - specialize (Hvalid r eq_refl).
    erewrite bind_Returned by (apply mergeEnvironments_run; [lia|apply Hlen]).
    rewrite deref_app_here, deref_app_l, insert_app_here by assumption.
    erewrite bind_Returned by (apply addTerminalEnvironmentKeys_run, Hlen).
    rewrite deref_app_here, insert_app_here. reflexivity.
  - erewrite bind_Returned by reflexivity.
    erewrite bind_Returned by (apply addTerminalEnvironmentKeys_run, Hlen).
    rewrite deref_app_here, insert_app_here. reflexivity.
Qed.

(** Outside strict mode: two new objects, the environment and the copy
    of the configured overlay; of the objects that were there, only the
    launch config's overlay is updated, and only by a resolver. *)
Lemma createTerminalEnvironment_run shellLaunchConfig envFromConfig
    variableResolver version detectLocale baseEnv (h : Heap) :
  IShellLaunchConfig.strictEnv shellLaunchConfig = false ->
  baseEnv < length h ->
  (forall c, envFromConfig = Some c -> c < length h) ->
  (forall r, IShellLaunchConfig.env shellLaunchConfig = Some r -> r < length h) ->
  let shellEnv := IShellLaunchConfig.env shellLaunchConfig in
  let h' :=
    match variableResolver with
    | Some _ => store_resolved variableResolver shellEnv h
    | None => h
    end in
  let copy := resolved variableResolver (configured_overlay h envFromConfig) in
  createTerminalEnvironment shellLaunchConfig envFromConfig variableResolver
    version detectLocale baseEnv h
  = (Returned (length h),
     h' ++ [pipeline (deref h baseEnv) copy (deref h' <$> shellEnv)
              version detectLocale;
            copy]).
Proof.
  intros Hstrict Hbase Hcfg Hshell shellEnv h' copy.
  unfold createTerminalEnvironment.
  rewrite (bind_Returned _ _ h (length h) (h ++ [[]])) by reflexivity.
  rewrite Hstrict.
  erewrite bind_Returned
    by (apply mergeNonNullKeys_run; rewrite ?length_app; simpl; lia).
  rewrite deref_app_here, deref_app_l, insert_app_here by assumption.
  set (e := Pure.mergeNonNullKeys [] (deref h baseEnv)).
  assert (Hspread :
    spread envFromConfig (h ++ [e])
    = (Returned (S (length h)), h ++ [e; configured_overlay h envFromConfig])).
  { unfold spread, configured_overlay. destruct envFromConfig as [c|].
    - unfold bind, Heap.read, Heap.alloc, gets. fold (deref (h ++ [e]) c).
      rewrite deref_app_l by auto. rewrite length_app, <- app_assoc. simpl.
      f_equal. f_equal. lia.
    - unfold Heap.alloc. rewrite length_app, <- app_assoc. simpl.
      f_equal. f_equal. lia. }
  rewrite (bind_Returned _ _ _ _ _ Hspread).
  erewrite bind_Returned by (apply resolve_step_run; [reflexivity|exact Hshell]).
  fold shellEnv h' copy.
  assert (Hlen : length h' = length h).
  { subst h'. destruct variableResolver; [apply length_store_resolved|reflexivity]. }
  rewrite <- Hlen.
  rewrite merge_steps_run; [|reflexivity|reflexivity|].
  - unfold pipeline. fold e. destruct shellEnv; reflexivity.
  - intros r Hr. rewrite Hlen. now apply Hshell.
Qed.

End Pipeline.

(** ** mergeEnvironments *)

Section MergeProperties.
Context `{StringCase} `{Platform} `{Processes}.

Lemma mergeEnvironments_actualKey_find configKey envKeys actualKey :
  mergeEnvironments_actualKey configKey envKeys actualKey
  = match List.find (matches_ignoring_case configKey) envKeys with
    | Some existing => existing
    | None => actualKey
    end.
Proof.
  induction envKeys as [|envKey envKeys IH]; simpl; [reflexivity|].
  unfold matches_ignoring_case at 1.
  destruct (String.eqb _ _); [reflexivity|exact IH].
Qed.

Lemma actualKey_resolved_key parent key :
  Pure.actualKey parent key = resolved_key parent key.
Proof.
  unfold Pure.actualKey, resolved_key.
  destruct isWindows; [apply mergeEnvironments_actualKey_find|reflexivity].
Qed.

Lemma mergeEnvironments_step_entry other key parent :
  Pure.mergeEnvironments_step other key parent
  = apply_overlay_entry parent (key, Object.get other key).
Proof.
  unfold Pure.mergeEnvironments_step, apply_overlay_entry. cbn [fst snd].
  rewrite actualKey_resolved_key. destruct (Object.get other key); reflexivity.
Qed.


(** The resolved name is a name of the base that matches, or the
    overlay name itself. *)
Lemma resolved_key_cases base key :
  resolved_key base key = key
  \/ (isWindows = true
      /\ In (resolved_key base key) (Object.keys base)
      /\ matches_ignoring_case key (resolved_key base key) = true).
Proof.
  unfold resolved_key. destruct isWindows; [|now left].
  destruct (List.find _ _) as [existing|] eqn:Hfind; [|now left].
  right. apply find_some in Hfind. tauto.
Qed.

Lemma matches_ignoring_case_refl key : matches_ignoring_case key key = true.
Proof. apply String.eqb_refl. Qed.

(** The name an overlay entry is applied under concerns only the names
    of the base the overlay name matches. *)
Lemma resolved_key_matches base key baseKey :
  resolved_key base key = baseKey -> key_matches key baseKey = true.
Proof.
  unfold key_matches.
  destruct (resolved_key_cases base key) as [-> | (HW & _ & Hm)].
  - intros ->. destruct isWindows;
      [apply matches_ignoring_case_refl | apply String.eqb_refl].
  - intros <-. now rewrite HW.
Qed.

Lemma apply_overlay_entry_frame base key value baseKey :
  (key_matches key baseKey = true -> value = VUndefined) ->
  let base' := apply_overlay_entry base (key, value) in
  Object.get base' baseKey = Object.get base baseKey
  /\ Object.has base' baseKey = Object.has base baseKey.
Proof.
  intros Hundef. unfold apply_overlay_entry. cbn [fst snd].
  destruct value as [s| |]; [| |split; reflexivity].
  - assert (Hne : resolved_key base key <> baseKey).
    { intros Heq%resolved_key_matches. now specialize (Hundef Heq). }
    split; [now apply get_set_ne | now apply has_set_ne].
  - assert (Hne : resolved_key base key <> baseKey).
    { intros Heq%resolved_key_matches. now specialize (Hundef Heq). }
    split; [now apply get_delete_ne | now apply has_delete_ne].
Qed.

Lemma mergeEnvironments_frame_obj parent other baseKey :
  (forall k, In k (Object.keys other) -> key_matches k baseKey = true ->
             Object.get other k = VUndefined) ->
  Object.get (Pure.mergeEnvironments parent other) baseKey
  = Object.get parent baseKey
  /\ Object.has (Pure.mergeEnvironments parent other) baseKey
     = Object.has parent baseKey.
Proof.
  intros Hundef. unfold Pure.mergeEnvironments.
  revert Hundef. generalize (Object.keys other) as keys.
  intros keys. revert parent.
  induction keys as [|k keys IH]; intros parent Hundef; simpl; [tauto|].
  destruct (IH (Pure.mergeEnvironments_step other k parent)) as [Hget Hhas].
  { intros k' Hin. apply Hundef. now right. }
  rewrite Hget, Hhas, mergeEnvironments_step_entry.
  apply apply_overlay_entry_frame. apply Hundef. now left.
Qed.

End MergeProperties.




(** C10: mergeEnvironments leaves a base entry as it is, present or
    absent and with the value it has, when every overlay name that
    concerns it (equal up to case on Windows, equal elsewhere) has the
    value [undefined]; so an [undefined] overlay value neither overwrites
    nor deletes, and a base name that no overlay name concerns is not
    modified. Nothing else in the store changes. *)
Theorem mergeEnvironments_undefined_frame `{StringCase} `{Platform}
    (parent other : ref) (h : Heap) (baseKey : string) :
  parent <> other -> parent < length h ->
  (forall k, In k (Object.keys (deref h other)) ->
             key_matches k baseKey = true ->
             Object.get (deref h other) k = VUndefined) ->
  exists parent' : Obj,
    mergeEnvironments parent (Some other) h = (Returned tt, <[parent := parent']> h)
    /\ Object.get parent' baseKey = Object.get (deref h parent) baseKey
    /\ Object.has parent' baseKey = Object.has (deref h parent) baseKey.
Proof.
  intros Hne Hlt Hundef.
  exists (Pure.mergeEnvironments (deref h parent) (deref h other)).
  split; [now apply mergeEnvironments_run|].
  now apply mergeEnvironments_frame_obj.
Qed.

(** On Windows: [{PATH: undefined, TMP: null}] merged into
    [{Path: "old", tmp: "/t"}] leaves [Path] as it is. *)
Lemma mergeEnvironments_undefined_frame_witness :
  exists parent' : Obj,
    @mergeEnvironments AsciiCase.instance Run.windows 0 (Some 1)
      [[("Path"%string, VString "old"); ("tmp"%string, VString "/t")];
       [("PATH"%string, VUndefined); ("TMP"%string, VNull)]]
    = (Returned tt,
       [parent'; [("PATH"%string, VUndefined); ("TMP"%string, VNull)]])
    /\ Object.get parent' "Path" = VString "old"
    /\ Object.has parent' "Path" = true.
Proof.
  destruct (@mergeEnvironments_undefined_frame AsciiCase.instance Run.windows
              0 1
              [[("Path"%string, VString "old"); ("tmp"%string, VString "/t")];
               [("PATH"%string, VUndefined); ("TMP"%string, VNull)]]
              "Path"%string)
    as (parent' & Hrun & Hget & Hhas).
  - lia.
  - simpl. lia.
  - intros k [<- | [<- | []]]; [reflexivity | discriminate].
  - exists parent'. split; [exact Hrun|]. split; [exact Hget | exact Hhas].
Defined.

(** ** mergeNonNullKeys and resolveConfigurationVariables, entry by entry *)

Section EntryByEntry.

Lemma get_app_notin (a b : Obj) k :
  ~ In k (Object.keys a) -> Object.get (a ++ b) k = Object.get b k.
Proof.
  induction a as [|[k' v'] a IH]; simpl; [reflexivity|].
  intros Hnotin. destruct (String.eqb_spec k' k) as [->|Hne]; [tauto|].
  apply IH. tauto.
Qed.

Lemma update_app_notin (a b : Obj) k v :
  ~ In k (Object.keys a) -> Object.update (a ++ b) k v = a ++ Object.update b k v.
Proof.
  induction a as [|[k' v'] a IH]; simpl; [reflexivity|].
  intros Hnotin. destruct (String.eqb_spec k' k) as [->|Hne]; [tauto|].
  rewrite IH; [reflexivity|tauto].
Qed.

Lemma has_app (a b : Obj) k :
  Object.has (a ++ b) k = Object.has a k || Object.has b k.
Proof.
  induction a as [|[k' v'] a IH]; simpl; [reflexivity|].
  now rewrite IH, orb_assoc.
Qed.

Lemma keys_app (a b : Obj) : Object.keys (a ++ b) = Object.keys a ++ Object.keys b.
Proof. apply map_app. Qed.

Lemma wf_cons k v (o : Obj) :
  Object.wf ((k, v) :: o) <-> ~ In k (Object.keys o) /\ Object.wf o.
Proof.
  unfold Object.wf. simpl. rewrite NoDup_cons, list_elem_of_In. reflexivity.
Qed.


Lemma resolveConfigurationVariables_resolve_entries variableResolver (env : Obj) :
  Object.wf env ->
  Pure.resolveConfigurationVariables variableResolver env
  = resolve_entries variableResolver env.
Proof.
  intros Hwf. unfold Pure.resolveConfigurationVariables, resolve_entries.
  set (step := fun (env : Obj) key =>
                 match Object.get env key with
                 | VString s =>
                     Object.set env key
                       (Pure.resolveValue variableResolver (VString s))
                 | _ => env
                 end).
  set (f := fun kv : string * Value =>
              (kv.1, Pure.resolveValue variableResolver kv.2)).
  assert (Hgen : forall todo done,
    Object.wf todo ->
    (forall k, In k (Object.keys done) -> ~ In k (Object.keys todo)) ->
    fold_left step (Object.keys todo) (done ++ todo) = done ++ map f todo).
  { induction todo as [|[k v] todo IH]; intros done Htodo Hdisj; simpl.
    - reflexivity.
    - apply wf_cons in Htodo as [Hk Htodo].
      assert (Hnotin : ~ In k (Object.keys done))
        by (intros Hin; apply (Hdisj k Hin); now left).
      assert (Hstep : step (done ++ (k, v) :: todo) k
                      = (done ++ [f (k, v)]) ++ todo).
      { unfold step. rewrite get_app_notin by assumption. simpl.
        rewrite String.eqb_refl. rewrite <- app_assoc. simpl.
        destruct v as [s| |]; try reflexivity.
        rewrite set_own
          by (rewrite has_app; simpl; rewrite String.eqb_refl; apply orb_true_r).
        rewrite update_app_notin by assumption. simpl.
        now rewrite String.eqb_refl. }
      rewrite Hstep, IH; [now rewrite <- app_assoc|assumption|].
      intros k' Hin. rewrite keys_app in Hin.
      apply in_app_or in Hin as [Hin | [<- | []]]; [|exact Hk].
      intros Hin'. apply (Hdisj k' Hin). now right. }
  apply (Hgen env []); [assumption|intros k []].
Qed.

End EntryByEntry.

(** ** Only strings in the environment *)

Section OnlyStrings.
Context `{StringCase} `{Platform} `{Processes}.

Lemma all_strings_fold {A} (step : Obj -> A -> Obj) (l : list A) (o : Obj) :
  (forall o x, all_strings o -> all_strings (step o x)) ->
  all_strings o -> all_strings (fold_left step l o).
Proof.
  intros Hstep. revert o. induction l as [|x l IH]; intros o Ho; simpl; auto.
Qed.

Lemma truthy_isString v : truthy v = true -> isString v = true.
Proof. destruct v; [reflexivity|discriminate..]. Qed.

Lemma all_strings_mergeNonNullKeys env other :
  all_strings env -> all_strings (Pure.mergeNonNullKeys env other).
Proof.
  intros Henv. apply all_strings_fold; [|assumption].
  intros o key Ho. cbn zeta.
  destruct (truthy (Object.get other key)) eqn:Htruthy; [|assumption].
  apply all_strings_set; [assumption|]. now apply truthy_isString.
Qed.

Lemma all_strings_sanitizeProcessEnvironment env names :
  all_strings env -> all_strings (Pure.sanitizeProcessEnvironment env names).
Proof.
  intros Henv. apply all_strings_fold; [|assumption].
  intros o key Ho. destruct (_ || _); [|assumption].
  now apply all_strings_delete.
Qed.

Lemma all_strings_mergeEnvironments parent other :
  all_strings parent -> all_strings (Pure.mergeEnvironments parent other).
Proof.
  intros Hparent. apply all_strings_fold; [|assumption].
  intros o key Ho. unfold Pure.mergeEnvironments_step, Pure.mergeEnvironmentValue.
  destruct (Object.get other key); [|now apply all_strings_delete|assumption].
  now apply all_strings_set.
Qed.

Lemma all_strings_addTerminalEnvironmentKeys env version locale detectLocale :
  all_strings env ->
  all_strings (Pure.addTerminalEnvironmentKeys env version locale detectLocale).
Proof.
  intros Henv. unfold Pure.addTerminalEnvironmentKeys. cbn zeta.
  apply all_strings_set; [|reflexivity].
  destruct (Pure.shouldSetLangEnvVariable _ _);
    [apply all_strings_set; [|reflexivity]|];
    (destruct version as [version|];
     [destruct (Str.truthy version);
      [apply all_strings_set; [|reflexivity]|]|]);
    now apply all_strings_set.
Qed.

Lemma all_strings_pipeline base configured shell version detectLocale :
  all_strings (pipeline base configured shell version detectLocale).
Proof.
  unfold pipeline. cbn zeta. apply all_strings_addTerminalEnvironmentKeys.
  assert (Hmerged : all_strings
            (Pure.mergeEnvironments
               (Pure.sanitizeProcessEnvironment
                  (Pure.mergeNonNullKeys [] base) ["VSCODE_IPC_HOOK_CLI"%string])
               configured)).
  { apply all_strings_mergeEnvironments, all_strings_sanitizeProcessEnvironment,
      all_strings_mergeNonNullKeys. constructor. }
  destruct shell; [now apply all_strings_mergeEnvironments|assumption].
Qed.

End OnlyStrings.

(** ** createTerminalEnvironment *)




(** C5 (as amended): outside strict mode and with a resolver,
    createTerminalEnvironment resolves the variables of the launch
    config's own overlay in place, value by value (first part), and those
    of the configured overlay in a new copy of it (third part): every other
    object that was in the store, the caller's configured overlay among
    them unless it is the very object of the launch config, is as it was
    (second part). A value that is not a string, or whose resolution
    throws, passes through unchanged ([resolve_entries]). The environment
    returned is built from the two resolved overlays (fourth part). *)
Theorem createTerminalEnvironment_resolves_overlays
    `{StringCase} `{Platform} `{Processes}
    (shellLaunchConfig : IShellLaunchConfig.t) (envFromConfig : option ref)
    (resolver : VariableResolver) (version : option string)
    (detectLocale : DetectLocale) (baseEnv : ref) (h : Heap) :
  IShellLaunchConfig.strictEnv shellLaunchConfig = false ->
  baseEnv < length h ->
  (forall c, envFromConfig = Some c -> c < length h /\ Object.wf (deref h c)) ->
  (forall r, IShellLaunchConfig.env shellLaunchConfig = Some r ->
             r < length h /\ Object.wf (deref h r)) ->
  exists h' : Heap,
    createTerminalEnvironment shellLaunchConfig envFromConfig (Some resolver)
      version detectLocale baseEnv h
    = (Returned (length h), h')
    /\ (forall r, IShellLaunchConfig.env shellLaunchConfig = Some r ->
                  h' !! r = Some (resolve_entries resolver (deref h r)))
    /\ (forall r, r < length h ->
                  IShellLaunchConfig.env shellLaunchConfig <> Some r ->
                  h' !! r = h !! r)
    /\ h' !! S (length h)
       = Some (resolve_entries resolver (configured_overlay h envFromConfig))
    /\ h' !! length h
       = Some (pipeline (deref h baseEnv)
                 (resolve_entries resolver (configured_overlay h envFromConfig))
                 ((fun r => resolve_entries resolver (deref h r))
                    <$> IShellLaunchConfig.env shellLaunchConfig)
                 version detectLocale).
Proof.
  intros Hstrict Hbase Hcfg Hshell.
  eexists. split.
  { apply createTerminalEnvironment_run; [assumption..| |].
    - intros c Hc. now apply Hcfg.
    - intros r Hr. now apply Hshell. }
  cbn zeta.
  assert (Hcopy : resolved (Some resolver) (configured_overlay h envFromConfig)
                  = resolve_entries resolver (configured_overlay h envFromConfig)).
  { unfold resolved. apply resolveConfigurationVariables_resolve_entries.
    unfold configured_overlay. destruct envFromConfig as [c|].
    - now apply Hcfg.
    - constructor. }
  rewrite Hcopy.
  set (shellEnv := IShellLaunchConfig.env shellLaunchConfig) in *.
  set (h1 := store_resolved (Some resolver) shellEnv h).
  assert (Hlen : length h1 = length h) by apply length_store_resolved.
  repeat apply conj.
  - intros r ->. destruct (Hshell r eq_refl) as [Hr Hwf].
    rewrite lookup_app_l by (rewrite Hlen; exact Hr).
    subst h1. simpl. rewrite list_lookup_insert_eq by exact Hr.
    unfold resolved. now rewrite resolveConfigurationVariables_resolve_entries.
  - intros r Hr Hne. rewrite lookup_app_l by (rewrite Hlen; exact Hr).
    subst h1. destruct shellEnv as [r'|]; simpl; [|reflexivity].
    apply list_lookup_insert_ne. congruence.
  - rewrite <- Hlen.
    replace (h1 ++ [_; _]) with ((h1 ++ [pipeline (deref h baseEnv)
      (resolve_entries resolver (configured_overlay h envFromConfig))
      (deref h1 <$> shellEnv) version detectLocale])
      ++ [resolve_entries resolver (configured_overlay h envFromConfig)])
      by now rewrite <- app_assoc.
    rewrite list_lookup_middle; [reflexivity|].
    rewrite length_app. simpl. lia.
  - rewrite <- Hlen, list_lookup_middle by reflexivity.
    do 2 f_equal. subst h1. destruct shellEnv as [r|]; simpl; [|reflexivity].
    destruct (Hshell r eq_refl) as [Hr Hwf].
    rewrite deref_insert_eq by exact Hr.
    unfold resolved. now rewrite resolveConfigurationVariables_resolve_entries.
Qed.

(** On the sample store: the launch config's overlay (at 0) is resolved in
    place, the base environment (at 1) and the configured overlay (at 2)
    are as they were, and the copy of the configured overlay (at 4) is
    resolved. *)
Lemma createTerminalEnvironment_resolves_overlays_witness :
  exists h' : Heap,
    @createTerminalEnvironment AsciiCase.instance Run.linux Run.no_sanitizing
      Sample.shellLaunchConfig (Some 2) (Some Sample.resolver)
      (Some "1.0"%string) Auto 1 Sample.store
    = (Returned 3, h')
    /\ h' !! 0 = Some [("A"%string, VString "r"); ("B"%string, VNull);
                       ("HOME"%string, VNull)]
    /\ h' !! 1 = Sample.store !! 1
    /\ h' !! 2 = Sample.store !! 2
    /\ h' !! 4 = Some [("X"%string, VString "r"); ("Y"%string, VString "${w}")].
Proof.
  destruct (@createTerminalEnvironment_resolves_overlays
              AsciiCase.instance Run.linux Run.no_sanitizing
              Sample.shellLaunchConfig (Some 2) Sample.resolver
              (Some "1.0"%string) Auto 1 Sample.store eq_refl)
    as (h' & Hrun & Hshell & Hframe & Hcopy & _).
  - simpl. lia.
  - intros c [= <-]. split; [simpl; lia|].
    apply (bool_decide_unpack _). reflexivity.
  - intros r [= <-]. split; [simpl; lia|].
    apply (bool_decide_unpack _). reflexivity.
  - exists h'. split; [exact Hrun|].
    split; [exact (Hshell 0 eq_refl)|].
    split; [apply Hframe; [simpl; lia|discriminate]|].
    split; [apply Hframe; [simpl; lia|discriminate]|].
    exact Hcopy.
Defined.

(** C5 as stated fails for the configured overlay: after the call the
    caller's object still holds the unresolved [${v}], where the claim has
    it resolved in place. *)
Lemma createTerminalEnvironment_configured_overlay_not_mutated :
  let h' :=
    (@createTerminalEnvironment AsciiCase.instance Run.linux Run.no_sanitizing
       Sample.shellLaunchConfig (Some 2) (Some Sample.resolver)
       (Some "1.0"%string) Auto 1 Sample.store).2 in
  h' !! 2 = Some [("X"%string, VString "${v}"); ("Y"%string, VString "${w}")]
  /\ h' !! 2 <> Some (resolve_entries Sample.resolver (deref Sample.store 2)).
Proof. split; [reflexivity|]. vm_compute. discriminate. Qed.

(** C9: the environment createTerminalEnvironment returns, in strict mode
    or not, holds only string values: no entry of it has the value [null]
    or [undefined]. *)
Theorem createTerminalEnvironment_only_strings
    `{StringCase} `{Platform} `{Processes}
    (shellLaunchConfig : IShellLaunchConfig.t) (envFromConfig : option ref)
    (variableResolver : option VariableResolver) (version : option string)
    (detectLocale : DetectLocale) (baseEnv : ref) (h : Heap) :
  baseEnv < length h ->
  (forall c, envFromConfig = Some c -> c < length h) ->
  (forall r, IShellLaunchConfig.env shellLaunchConfig = Some r -> r < length h) ->
  exists (env : ref) (h' : Heap) (result : Obj),
    createTerminalEnvironment shellLaunchConfig envFromConfig variableResolver
      version detectLocale baseEnv h
    = (Returned env, h')
    /\ h' !! env = Some result
    /\ forall k v, In (k, v) result -> exists s, v = VString s.
Proof.
  intros Hbase Hcfg Hshell.
  assert (Hstrings : forall o : Obj,
            all_strings o -> forall k v, In (k, v) o -> exists s, v = VString s).
  { intros o Ho k v Hin. unfold all_strings in Ho. rewrite Forall_forall in Ho.
    specialize (Ho (k, v)). rewrite list_elem_of_In in Ho. specialize (Ho Hin).
    destruct v; try discriminate Ho. eauto. }
  destruct (IShellLaunchConfig.strictEnv shellLaunchConfig) eqn:Hstrict.
  - do 3 eexists. split; [now apply createTerminalEnvironment_strict_run|].
    split; [now apply list_lookup_middle|].
    apply Hstrings.
    destruct (IShellLaunchConfig.env shellLaunchConfig);
      [apply all_strings_mergeNonNullKeys|]; constructor.
  - do 3 eexists. split; [now apply createTerminalEnvironment_run|].
    cbn zeta. split.
    + apply list_lookup_middle.
      destruct variableResolver;
        [symmetry; apply length_store_resolved|reflexivity].
    + apply Hstrings, all_strings_pipeline.
Qed.

(** Outside strict mode, with [null] values in the launch config's overlay:
    the environment that comes out has seven entries, all strings. *)
Lemma createTerminalEnvironment_only_strings_witness :
  exists (h' : Heap) (result : Obj),
    @createTerminalEnvironment AsciiCase.instance Run.linux Run.no_sanitizing
      Sample.shellLaunchConfig (Some 2) (Some Sample.resolver)
      (Some "1.0"%string) Auto 1 Sample.store
    = (Returned 3, h')
    /\ h' !! 3 = Some result
    /\ forall k v, In (k, v) result -> exists s, v = VString s.
Proof.
  destruct (@createTerminalEnvironment_only_strings
              AsciiCase.instance Run.linux Run.no_sanitizing
              Sample.shellLaunchConfig (Some 2) (Some Sample.resolver)
              (Some "1.0"%string) Auto 1 Sample.store)
    as (env & h' & result & Hrun & Hresult & Hstrings).
  - simpl. lia.
  - intros c [= <-]. simpl. lia.
  - intros r [= <-]. simpl. lia.
  - assert (Henv : env = 3) by (vm_compute in Hrun; congruence).
    subst env. exists h', result. split; [exact Hrun|].
    split; [exact Hresult | exact Hstrings].
Defined.

(* ================================================================== *)
(** * Further properties *)

(** ** findExecutable: exceptions, explicit paths, number of probes *)

Section FindExecutableFurther.
Context `{StringCase} `{Platform} `{path.Interface} `{process.Interface}.

Lemma first_existing_asking answer l :
  first_existing (asking answer) l tt
  = (match List.find (fun c => negb (answers_absent answer c)) l with
     | Some c =>
         match answer c with
         | inr _ => Returned (Some c)
         | inl e => Thrown e
         end
     | None => Returned None
     end, tt).
Proof.
  induction l as [|c l IH]; [reflexivity|].
  cbn [first_existing List.find]. unfold bind, answers_absent, asking at 1.
  destruct (answer c) as [e|[|]] eqn:Hc; cbn [negb]; rewrite ?Hc;
    try reflexivity.
  exact IH.
Qed.

Lemma probe_order_not_nil command cwd paths env :
  probe_order command cwd paths env <> [].
Proof.
  unfold probe_order.
  destruct (path.isAbsolute command); [discriminate|].
  destruct (negb _); [discriminate|].
  destruct (search_list paths env) as [entries|]; [|discriminate].
  intros Hnil. apply app_eq_nil in Hnil as [_ Hnil]. discriminate.
Qed.

Lemma probed_length_le present l : length (probed present l) <= length l.
Proof.
  induction l as [|c l IH]; [reflexivity|].
  cbn [probed]. destruct (present c); cbn [length]; lia.
Qed.

Lemma probed_length_bounds present l :
  l <> [] -> 1 <= length (probed present l) <= length l.
Proof.
  intros Hl. split; [|apply probed_length_le].
  destruct l as [|c l]; [contradiction|]. cbn [probed length]. lia.
Qed.

Lemma flat_map_entry_candidates_length command cwd entries :
  length (flat_map (entry_candidates command cwd) entries)
  = (if isWindows then 3 else 1) * length entries.
Proof.
  induction entries as [|entry entries IH]; [simpl; lia|].
  cbn [flat_map]. rewrite length_app, IH. unfold entry_candidates.
  destruct isWindows; simpl; lia.
Qed.

Lemma probe_order_length command cwd paths env :
  length (probe_order command cwd paths env)
  <= 1 + (if isWindows then 3 else 1) * length (default [] (search_list paths env)).
Proof.
  unfold probe_order.
  destruct (path.isAbsolute command); [simpl; lia|].
  destruct (negb _); [simpl; lia|].
  destruct (search_list paths env) as [entries|]; [|simpl; lia].
  rewrite length_app, flat_map_entry_candidates_length. simpl. lia.
Qed.

Lemma probed_all_absent (present : string -> bool) (l : list string) :
  List.find present l = None <-> forall c, In c l -> present c = false.
Proof.
  induction l as [|c l IH]; simpl; [tauto|].
  destruct (present c) eqn:Hc.
  - split; [discriminate|]. intros Hall. specialize (Hall c (or_introl eq_refl)).
    congruence.
  - rewrite IH. split.
    + intros Hall c' [<- | Hin]; auto.
    + intros Hall c' Hin. apply Hall. now right.
Qed.

Lemma probed_none (present : string -> bool) (l : list string) :
  List.find present l = None -> probed present l = l.
Proof.
  induction l as [|c l IH]; simpl; [reflexivity|].
  destruct (present c); [discriminate|]. intros Hnone. now rewrite IH.
Qed.

End FindExecutableFurther.

(** X1: findExecutable has no handler around the existence check: with a
    check that answers or throws per path, the search stops at the first
    candidate of the probe order that is not answered "absent", returning
    it if the answer is "present" and throwing the exception of the check
    otherwise, whatever lies behind it in the order. *)
Theorem findExecutable_probe_exception
    `{StringCase} `{Platform} `{path.Interface} `{process.Interface}
    (answer : string -> Exn + bool)
    (command : string) (cwd : option string) (paths : option (list string))
    (env : Obj) :
  findExecutable (asking answer) command cwd paths env tt
  = (match List.find (fun c => negb (answers_absent answer c))
             (probe_order command cwd paths env) with
     | Some c =>
         match answer c with
         | inr _ => Returned (Some c)
         | inl e => Thrown e
         end
     | None => Returned None
     end, tt).
Proof. rewrite findExecutable_refines. apply first_existing_asking. Qed.

(** X2: explicit [paths] replace the PATH of the environment: with them
    the result and the probes are the same for every environment, and with
    the empty list a command that is not absolute is probed under the cwd
    only, the PATH of the environment not being used. *)
Theorem findExecutable_explicit_paths
    `{StringCase} `{Platform} `{path.Interface} `{process.Interface}
    (command : string) (cwd : option string) (paths : list string) :
  (forall FS (exists_ : string -> M FS bool) (env env' : Obj) (s : FS),
      findExecutable exists_ command cwd (Some paths) env s
      = findExecutable exists_ command cwd (Some paths) env' s)
  /\ (paths = [] -> path.isAbsolute command = false ->
      forall (present : string -> bool) (env : Obj) (trace : list string),
        let fullPath := path.join [default process.cwd cwd; command] in
        findExecutable (probing present) command cwd (Some paths) env trace
        = (Returned (if present fullPath then Some fullPath else None),
           trace ++ [fullPath])).
Proof.
  split.
  - intros FS exists_ env env' s. now rewrite !findExecutable_refines.
  - intros -> Habs present env trace fullPath.
    rewrite findExecutable_refines, first_existing_probing.
    unfold probe_order, search_list. rewrite Habs.
    destruct (negb _); simpl; fold fullPath; destruct (present fullPath);
      reflexivity.
Qed.

(** With an empty list of paths and a PATH in the environment that holds
    the command: only the cwd is probed. *)
Lemma findExecutable_explicit_paths_witness :
  @findExecutable AsciiCase.instance Run.linux Run.slash_path Run.home _
    (probing (Run.among ["/bin/cmd"%string]))
    "cmd" (Some "/w"%string) (Some []) [("PATH"%string, VString "/bin")] []
  = (Returned None, ["/w/cmd"%string]).
Proof.
  destruct (@findExecutable_explicit_paths
              AsciiCase.instance Run.linux Run.slash_path Run.home
              "cmd" (Some "/w"%string) []) as [_ Hempty].
  rewrite (Hempty eq_refl eq_refl). reflexivity.
Defined.

(** X3: a call of findExecutable makes at least one existence check and
    at most one more than the number of entries of the search list, three
    times that number on Windows. *)
Theorem findExecutable_probe_count
    `{StringCase} `{Platform} `{path.Interface} `{process.Interface}
    (present : string -> bool)
    (command : string) (cwd : option string) (paths : option (list string))
    (env : Obj) (trace : list string) :
  exists (found : option string) (probes : list string),
    findExecutable (probing present) command cwd paths env trace
    = (Returned found, trace ++ probes)
    /\ 1 <= length probes
    /\ length probes
       <= 1 + (if isWindows then 3 else 1)
              * length (default [] (search_list paths env)).
Proof.
  eexists _, _. split.
  - rewrite findExecutable_refines. apply first_existing_probing.
  - pose proof (probed_length_bounds present _
                  (probe_order_not_nil command cwd paths env)) as Hbounds.
    pose proof (probe_order_length command cwd paths env) as Horder.
    lia.
Qed.

(** X4: findExecutable returns [undefined] exactly when no candidate of
    the probe order is present, and then every candidate was probed, in
    order. *)
Theorem findExecutable_not_found
    `{StringCase} `{Platform} `{path.Interface} `{process.Interface}
    (present : string -> bool)
    (command : string) (cwd : option string) (paths : option (list string))
    (env : Obj) (trace : list string) :
  ((findExecutable (probing present) command cwd paths env trace).1
   = Returned None
   <-> forall c, In c (probe_order command cwd paths env) -> present c = false)
  /\ ((forall c, In c (probe_order command cwd paths env) -> present c = false) ->
      findExecutable (probing present) command cwd paths env trace
      = (Returned None, trace ++ probe_order command cwd paths env)).
Proof.
  rewrite findExecutable_refines, first_existing_probing. cbn [fst]. split.
  - rewrite <- probed_all_absent. split; [congruence|intros ->; reflexivity].
  - intros Hall%probed_all_absent. now rewrite Hall, probed_none.
Qed.

(** Nothing exists: the two entries and then the cwd are probed. *)
Lemma findExecutable_not_found_witness :
  @findExecutable AsciiCase.instance Run.linux Run.slash_path Run.home _
    (probing (fun _ => false))
    "cmd" (Some "/w"%string) (Some ["/a"; "/b"]%string) [] []
  = (Returned None, ["/a/cmd"; "/b/cmd"; "/w/cmd"]%string).
Proof.
  destruct (@findExecutable_not_found
              AsciiCase.instance Run.linux Run.slash_path Run.home
              (fun _ => false) "cmd" (Some "/w"%string)
              (Some ["/a"; "/b"]%string) [] []) as [_ Hall].
  rewrite Hall; [reflexivity|]. intros c _. reflexivity.
Defined.

(** ** getLangEnvVariable: one segment, and the suffix of every result *)

Lemma split_no_separator sep s :
  contains_char sep s = false -> Str.split sep s = [s].
Proof.
  induction s as [|c s IH]; [reflexivity|].
  cbn [contains_char Str.split]. intros [Hc Hs]%orb_false_iff.
  now rewrite Hc, (IH Hs).
Qed.

Lemma getLangEnvVariable_has_suffix `{StringCase} locale :
  has_suffix (getLangEnvVariable locale) ".UTF-8".
Proof.
  unfold getLangEnvVariable, has_suffix.
  destruct (_ =? 0); [now exists "en_US"%string | eauto].
Qed.

Lemma languageVariant_app (own inherited : list (string * string)) k :
  languageVariant (own ++ inherited) k
  = match languageVariant own k with
    | Some v => Some v
    | None => languageVariant inherited k
    end.
Proof.
  induction own as [|[k' v] own IH]; simpl; [reflexivity|].
  now destruct (String.eqb k' k).
Qed.

(** X5: for a locale of one segment getLangEnvVariable looks the segment
    up in the table of default variants as it is written: a language of
    the table gives [language_VARIANT.UTF-8]; a name the table inherits
    from [Object.prototype] ([constructor], [toString], ...) is found by
    [in] as well, and the text of what is inherited is appended in the
    place of a variant; any other segment is passed through as
    [segment.UTF-8], in the case it has. A missing or empty locale gives
    [en_US.UTF-8]. *)
Theorem getLangEnvVariable_single_segment `{StringCase} (locale : option string) :
  (locale = None \/ locale = Some ""%string ->
   getLangEnvVariable locale = "en_US.UTF-8"%string)
  /\ (forall language,
         locale = Some language -> language <> ""%string ->
         contains_char "-" language = false ->
         getLangEnvVariable locale
         = match languageVariant languageVariants language with
           | Some variant => language +:+ "_" +:+ variant +:+ ".UTF-8"
           | None =>
               match languageVariant Object_prototype language with
               | Some inherited => language +:+ "_" +:+ inherited +:+ ".UTF-8"
               | None => language +:+ ".UTF-8"
               end
           end).
Proof.
  split.
  - intros [-> | ->]; reflexivity.
  - intros language -> Hne Hdash. unfold getLangEnvVariable.
    destruct language as [|c language]; [contradiction|].
    cbn [Str.truthy String.eqb negb]. rewrite (split_no_separator _ _ Hdash).
    cbn [length Nat.eqb]. cbn [lookup list_lookup mbind option_bind].
    unfold languageVariants_in. rewrite languageVariant_app.
    destruct (languageVariant languageVariants (String c language));
      [|destruct (languageVariant Object_prototype (String c language))];
      unfold Str.join; cbn [app String.concat]; try reflexivity;
      now rewrite !append_assoc.
Qed.

(** A language of the table, a segment outside it, one in upper case,
    which the table does not hold, and a name the table inherits. *)
Lemma getLangEnvVariable_single_segment_witness :
  @getLangEnvVariable AsciiCase.instance (Some "fr"%string) = "fr_FR.UTF-8"%string
  /\ @getLangEnvVariable AsciiCase.instance (Some "tlh"%string) = "tlh.UTF-8"%string
  /\ @getLangEnvVariable AsciiCase.instance (Some "FR"%string) = "FR.UTF-8"%string
  /\ @getLangEnvVariable AsciiCase.instance (Some "constructor"%string)
     = "constructor_function Object() { [native code] }.UTF-8"%string.
Proof.
  split; [|split; [|split]].
  - destruct (@getLangEnvVariable_single_segment AsciiCase.instance
                (Some "fr"%string)) as [_ Hone].
    rewrite (Hone "fr"%string eq_refl ltac:(discriminate) eq_refl). reflexivity.
  - destruct (@getLangEnvVariable_single_segment AsciiCase.instance
                (Some "tlh"%string)) as [_ Hone].
    rewrite (Hone "tlh"%string eq_refl ltac:(discriminate) eq_refl). reflexivity.
  - destruct (@getLangEnvVariable_single_segment AsciiCase.instance
                (Some "FR"%string)) as [_ Hone].
    rewrite (Hone "FR"%string eq_refl ltac:(discriminate) eq_refl). reflexivity.
  - destruct (@getLangEnvVariable_single_segment AsciiCase.instance
                (Some "constructor"%string)) as [_ Hone].
    rewrite (Hone "constructor"%string eq_refl ltac:(discriminate) eq_refl).
    reflexivity.
Defined.

(** ** addTerminalEnvironmentKeys *)

Section StampedKeys.
Context `{StringCase} `{Platform} `{Processes}.

Lemma set_same (o : Obj) k v :
  Object.has o k = true -> Object.get o k = v -> Object.set o k v = o.
Proof.
  intros Hown. rewrite set_own by assumption. revert Hown.
  induction o as [|[k' v'] o IH]; simpl; [discriminate|].
  destruct (String.eqb_spec k' k) as [->|Hne]; simpl.
  - now intros _ ->.
  - intros Hhas Hget. now rewrite IH.
Qed.

Lemma shouldSetLangEnvVariable_LANG (e e' : Obj) detectLocale :
  Object.get e "LANG" = Object.get e' "LANG" ->
  Pure.shouldSetLangEnvVariable e detectLocale
  = Pure.shouldSetLangEnvVariable e' detectLocale.
Proof. intros Hget. unfold Pure.shouldSetLangEnvVariable. now rewrite Hget. Qed.

Lemma shouldSetLangEnvVariable_suffix (e : Obj) lang :
  Object.get e "LANG" = VString lang -> has_suffix lang ".UTF-8" ->
  Pure.shouldSetLangEnvVariable e Auto = false.
Proof.
  intros Hget Hsuffix. unfold Pure.shouldSetLangEnvVariable. rewrite Hget.
  apply endsWith_true in Hsuffix as Hends. rewrite Hends. cbn [negb andb].
  rewrite orb_false_r. apply negb_false_iff.
  destruct Hsuffix as [pre ->]. destruct pre; reflexivity.
Qed.

Lemma stamped_version_get e version k :
  k <> "TERM_PROGRAM"%string -> k <> "TERM_PROGRAM_VERSION"%string ->
  Object.get (stamped_version e version) k = Object.get e k
  /\ Object.has (stamped_version e version) k = Object.has e k.
Proof.
  intros H1' H2'. unfold stamped_version.
  destruct version as [version|]; [destruct (Str.truthy version)|];
    rewrite ?get_set_ne, ?has_set_ne by congruence; split; reflexivity.
Qed.

Lemma addTerminalEnvironmentKeys_unfold e version locale detectLocale :
  Pure.addTerminalEnvironmentKeys e version locale detectLocale
  = Object.set
      (if Pure.shouldSetLangEnvVariable e detectLocale
       then Object.set (stamped_version e version) "LANG"
              (VString (getLangEnvVariable locale))
       else stamped_version e version)
      "COLORTERM" (VString "truecolor").
Proof.
  unfold Pure.addTerminalEnvironmentKeys. cbn zeta. fold (stamped_version e version).
  rewrite (shouldSetLangEnvVariable_LANG (stamped_version e version) e);
    [reflexivity|].
  apply stamped_version_get; discriminate.
Qed.

Lemma addTerminalEnvironmentKeys_other e version locale detectLocale k :
  ~ In k stamped_keys ->
  let e' := Pure.addTerminalEnvironmentKeys e version locale detectLocale in
  Object.get e' k = Object.get e k /\ Object.has e' k = Object.has e k.
Proof.
  intros Hk. cbn zeta. rewrite addTerminalEnvironmentKeys_unfold.
  assert (k <> "TERM_PROGRAM"%string /\ k <> "TERM_PROGRAM_VERSION"%string
          /\ k <> "LANG"%string /\ k <> "COLORTERM"%string) as (H1' & H2' & H3' & H4').
  { unfold stamped_keys in Hk. simpl in Hk. repeat split; intros ->; tauto. }
  destruct (stamped_version_get e version k H1' H2') as [Hget Hhas].
  rewrite get_set_ne, has_set_ne by congruence.
  destruct (Pure.shouldSetLangEnvVariable e detectLocale);
    rewrite ?get_set_ne, ?has_set_ne by congruence; now split.
Qed.

Lemma addTerminalEnvironmentKeys_TERM_PROGRAM e version locale detectLocale :
  let e' := Pure.addTerminalEnvironmentKeys e version locale detectLocale in
  Object.get e' "TERM_PROGRAM" = VString "vscode"
  /\ Object.has e' "TERM_PROGRAM" = true.
Proof.
  cbn zeta. rewrite addTerminalEnvironmentKeys_unfold.
  rewrite get_set_ne, has_set_ne by discriminate.
  assert (Hv : Object.get (stamped_version e version) "TERM_PROGRAM"
               = VString "vscode"
               /\ Object.has (stamped_version e version) "TERM_PROGRAM" = true).
  { unfold stamped_version.
    destruct version as [version|]; [destruct (Str.truthy version)|];
      rewrite ?get_set_ne, ?has_set_ne by discriminate;
      now rewrite get_set_eq, has_set_eq. }
  destruct (Pure.shouldSetLangEnvVariable e detectLocale);
    rewrite ?get_set_ne, ?has_set_ne by discriminate; exact Hv.
Qed.

Lemma addTerminalEnvironmentKeys_COLORTERM e version locale detectLocale :
  let e' := Pure.addTerminalEnvironmentKeys e version locale detectLocale in
  Object.get e' "COLORTERM" = VString "truecolor"
  /\ Object.has e' "COLORTERM" = true.
Proof.
  cbn zeta. rewrite addTerminalEnvironmentKeys_unfold.
  now rewrite get_set_eq, has_set_eq.
Qed.

Lemma addTerminalEnvironmentKeys_VERSION e version locale detectLocale :
  let e' := Pure.addTerminalEnvironmentKeys e version locale detectLocale in
  (truthy_opt version = true ->
   Object.get e' "TERM_PROGRAM_VERSION" = VString (default ""%string version)
   /\ Object.has e' "TERM_PROGRAM_VERSION" = true)
  /\ (truthy_opt version = false ->
      Object.get e' "TERM_PROGRAM_VERSION" = Object.get e "TERM_PROGRAM_VERSION"
      /\ Object.has e' "TERM_PROGRAM_VERSION" = Object.has e "TERM_PROGRAM_VERSION").
Proof.
  cbn zeta. rewrite addTerminalEnvironmentKeys_unfold.
  rewrite get_set_ne, has_set_ne by discriminate.
  assert (Hsame : forall o : Obj,
    Object.get (if Pure.shouldSetLangEnvVariable e detectLocale
                then Object.set o "LANG" (VString (getLangEnvVariable locale))
                else o) "TERM_PROGRAM_VERSION"
    = Object.get o "TERM_PROGRAM_VERSION"
    /\ Object.has (if Pure.shouldSetLangEnvVariable e detectLocale
                   then Object.set o "LANG" (VString (getLangEnvVariable locale))
                   else o) "TERM_PROGRAM_VERSION"
       = Object.has o "TERM_PROGRAM_VERSION").
  { intros o. destruct (Pure.shouldSetLangEnvVariable e detectLocale);
      rewrite ?get_set_ne, ?has_set_ne by discriminate; now split. }
  destruct (Hsame (stamped_version e version)) as [-> ->].
  unfold stamped_version, truthy_opt.
  destruct version as [version|]; [destruct (Str.truthy version)|];
    (split; [intros Ht|intros Hf]); try discriminate;
    rewrite ?get_set_eq, ?has_set_eq, ?get_set_ne, ?has_set_ne by discriminate;
    now split.
Qed.

Lemma addTerminalEnvironmentKeys_LANG e version locale detectLocale :
  let e' := Pure.addTerminalEnvironmentKeys e version locale detectLocale in
  (Pure.shouldSetLangEnvVariable e detectLocale = true ->
   Object.get e' "LANG" = VString (getLangEnvVariable locale)
   /\ Object.has e' "LANG" = true)
  /\ (Pure.shouldSetLangEnvVariable e detectLocale = false ->
      Object.get e' "LANG" = Object.get e "LANG"
      /\ Object.has e' "LANG" = Object.has e "LANG").
Proof.
  cbn zeta. rewrite addTerminalEnvironmentKeys_unfold.
  rewrite get_set_ne, has_set_ne by discriminate.
  split; intros ->.
  - now rewrite get_set_eq, has_set_eq.
  - apply stamped_version_get; discriminate.
Qed.

Lemma addTerminalEnvironmentKeys_settled e version locale detectLocale :
  detectLocale <> Off ->
  Pure.shouldSetLangEnvVariable
    (Pure.addTerminalEnvironmentKeys e version locale detectLocale) Auto = false.
Proof.
  intros Hoff.
  destruct (addTerminalEnvironmentKeys_LANG e version locale detectLocale)
    as [Hset Hkeep].
  destruct (Pure.shouldSetLangEnvVariable e detectLocale) eqn:Hshould.
  - destruct (Hset eq_refl) as [Hget _].
    eapply shouldSetLangEnvVariable_suffix; [exact Hget|].
    apply getLangEnvVariable_has_suffix.
  - destruct (Hkeep eq_refl) as [Hget _].
    rewrite (shouldSetLangEnvVariable_LANG _ e Auto Hget).
    destruct detectLocale; [exact Hshould|contradiction|discriminate Hshould].
Qed.

Lemma addTerminalEnvironmentKeys_idempotent e version locale detectLocale :
  let e' := Pure.addTerminalEnvironmentKeys e version locale detectLocale in
  Pure.addTerminalEnvironmentKeys e' version locale detectLocale = e'.
Proof.
  cbn zeta.
  set (e' := Pure.addTerminalEnvironmentKeys e version locale detectLocale).
  destruct (addTerminalEnvironmentKeys_TERM_PROGRAM e version locale detectLocale)
    as [Htp Htp'].
  destruct (addTerminalEnvironmentKeys_COLORTERM e version locale detectLocale)
    as [Hct Hct'].
  destruct (addTerminalEnvironmentKeys_VERSION e version locale detectLocale)
    as [Hv _].
  destruct (addTerminalEnvironmentKeys_LANG e version locale detectLocale)
    as [Hlang _].
  fold e' in Htp, Htp', Hct, Hct', Hv, Hlang.
  assert (Hstamped : stamped_version e' version = e').
  { unfold stamped_version. rewrite (set_same e' _ _ Htp' Htp).
    destruct version as [version|]; [|reflexivity].
    destruct (Str.truthy version) eqn:Ht; [|reflexivity].
    destruct (Hv Ht) as [Hget Hhas]. now apply set_same. }
  rewrite (addTerminalEnvironmentKeys_unfold e'), Hstamped.
  assert (Hlang' : (if Pure.shouldSetLangEnvVariable e' detectLocale
                    then Object.set e' "LANG" (VString (getLangEnvVariable locale))
                    else e') = e').
  { destruct (Pure.shouldSetLangEnvVariable e' detectLocale) eqn:Hshould';
      [|reflexivity].
    destruct detectLocale.
    - subst e'. rewrite addTerminalEnvironmentKeys_settled in Hshould';
        [discriminate|discriminate].
    - discriminate Hshould'.
    - destruct (Hlang eq_refl) as [Hget Hhas]. now apply set_same. }
  rewrite Hlang'. now apply set_same.
Qed.

End StampedKeys.

(** X6: addTerminalEnvironmentKeys always leaves [TERM_PROGRAM] at
    [vscode] and [COLORTERM] at [truecolor], whatever the environment held
    under these names, and touches no name other than the four it may
    write: every other name keeps its value, or stays absent. Only the
    environment changes in the store. *)
Theorem addTerminalEnvironmentKeys_stamps `{StringCase}
    (env : ref) (version locale : option string) (detectLocale : DetectLocale)
    (h : Heap) :
  env < length h ->
  exists e' : Obj,
    addTerminalEnvironmentKeys env version locale detectLocale h
    = (Returned tt, <[env := e']> h)
    /\ Object.get e' "TERM_PROGRAM" = VString "vscode"
    /\ Object.get e' "COLORTERM" = VString "truecolor"
    /\ forall k, ~ In k stamped_keys ->
         Object.get e' k = Object.get (deref h env) k
         /\ Object.has e' k = Object.has (deref h env) k.
Proof.
  intros Hlt. eexists. split; [now apply addTerminalEnvironmentKeys_run|].
  split; [apply addTerminalEnvironmentKeys_TERM_PROGRAM|].
  split; [apply addTerminalEnvironmentKeys_COLORTERM|].
  intros k Hk. now apply addTerminalEnvironmentKeys_other.
Qed.

(** An environment with a [TERM_PROGRAM] of its own and a [HOME]. *)
Lemma addTerminalEnvironmentKeys_stamps_witness :
  exists e' : Obj,
    @addTerminalEnvironmentKeys AsciiCase.instance 0 None None Off
      [[("TERM_PROGRAM"%string, VString "xterm"); ("HOME"%string, VString "/h")]]
    = (Returned tt, [e'])
    /\ Object.get e' "TERM_PROGRAM" = VString "vscode"
    /\ Object.get e' "COLORTERM" = VString "truecolor"
    /\ Object.get e' "HOME" = VString "/h".
Proof.
  destruct (@addTerminalEnvironmentKeys_stamps AsciiCase.instance 0 None None Off
              [[("TERM_PROGRAM"%string, VString "xterm");
                ("HOME"%string, VString "/h")]])
    as (e' & Hrun & Htp & Hct & Hother).
  - simpl. lia.
  - exists e'. split; [exact Hrun|]. split; [exact Htp|]. split; [exact Hct|].
    apply (Hother "HOME"%string). unfold stamped_keys. simpl.
    intros [Heq|[Heq|[Heq|[Heq|[]]]]]; discriminate Heq.
Defined.

(** X7: addTerminalEnvironmentKeys writes [TERM_PROGRAM_VERSION] only for
    a non-empty version: without one, a value the environment already
    holds under that name stays. With detectLocale [off] the [LANG] of the
    environment is left as it is, set or not; with [on] it is replaced by
    the value derived from the locale. *)
Theorem addTerminalEnvironmentKeys_version_and_lang `{StringCase}
    (env : ref) (version locale : option string) (detectLocale : DetectLocale)
    (h : Heap) :
  env < length h ->
  exists e' : Obj,
    addTerminalEnvironmentKeys env version locale detectLocale h
    = (Returned tt, <[env := e']> h)
    /\ (forall v, version = Some v -> v <> ""%string ->
                  Object.get e' "TERM_PROGRAM_VERSION" = VString v)
    /\ (version = None \/ version = Some ""%string ->
        Object.get e' "TERM_PROGRAM_VERSION"
        = Object.get (deref h env) "TERM_PROGRAM_VERSION"
        /\ Object.has e' "TERM_PROGRAM_VERSION"
           = Object.has (deref h env) "TERM_PROGRAM_VERSION")
    /\ (detectLocale = Off ->
        Object.get e' "LANG" = Object.get (deref h env) "LANG"
        /\ Object.has e' "LANG" = Object.has (deref h env) "LANG")
    /\ (detectLocale = On ->
        Object.get e' "LANG" = VString (getLangEnvVariable locale)).
Proof.
  intros Hlt. eexists. split; [now apply addTerminalEnvironmentKeys_run|].
  destruct (addTerminalEnvironmentKeys_VERSION (deref h env) version locale
              detectLocale) as [Hset Hkeep].
  destruct (addTerminalEnvironmentKeys_LANG (deref h env) version locale
              detectLocale) as [Hlang Hlang'].
  repeat apply conj.
  - intros v -> Hv. apply Hset. destruct v; [contradiction|reflexivity].
  - intros [-> | ->]; now apply Hkeep.
  - intros ->. now apply Hlang'.
  - intros ->. now apply Hlang.
Qed.

(** No version and detectLocale [off]: the version and the [LANG] that
    the environment came with are still there. *)
Lemma addTerminalEnvironmentKeys_version_and_lang_witness :
  exists e' : Obj,
    @addTerminalEnvironmentKeys AsciiCase.instance 0 None (Some "fr"%string) Off
      [[("TERM_PROGRAM_VERSION"%string, VString "0.9"); ("LANG"%string, VString "C")]]
    = (Returned tt, [e'])
    /\ Object.get e' "TERM_PROGRAM_VERSION" = VString "0.9"
    /\ Object.get e' "LANG" = VString "C".
Proof.
  destruct (@addTerminalEnvironmentKeys_version_and_lang AsciiCase.instance
              0 None (Some "fr"%string) Off
              [[("TERM_PROGRAM_VERSION"%string, VString "0.9");
                ("LANG"%string, VString "C")]])
    as (e' & Hrun & _ & Hkeep & Hoff & _).
  - simpl. lia.
  - exists e'. split; [exact Hrun|].
    split; [apply (Hkeep (or_introl eq_refl)) | apply (Hoff eq_refl)].
Defined.

(** X8: after addTerminalEnvironmentKeys with detectLocale [on] or
    [auto], the environment has a [LANG] that the automatic detection
    accepts: shouldSetLangEnvVariable with [auto] is [false] on it. *)
Theorem addTerminalEnvironmentKeys_settles_lang `{StringCase}
    (env : ref) (version locale : option string) (detectLocale : DetectLocale)
    (h : Heap) :
  env < length h -> detectLocale <> Off ->
  exists h' : Heap,
    addTerminalEnvironmentKeys env version locale detectLocale h
    = (Returned tt, h')
    /\ shouldSetLangEnvVariable env Auto h' = (Returned false, h').
Proof.
  intros Hlt Hoff. eexists. split; [now apply addTerminalEnvironmentKeys_run|].
  rewrite shouldSetLangEnvVariable_run, deref_insert_eq by assumption.
  now rewrite addTerminalEnvironmentKeys_settled.
Qed.

(** An environment with a Latin-1 [LANG]: it is replaced, and the
    detection is satisfied. *)
Lemma addTerminalEnvironmentKeys_settles_lang_witness :
  exists h' : Heap,
    @addTerminalEnvironmentKeys AsciiCase.instance 0 None (Some "de"%string) Auto
      [[("LANG"%string, VString "de_DE.ISO8859-1")]]
    = (Returned tt, h')
    /\ shouldSetLangEnvVariable 0 Auto h' = (Returned false, h').
Proof.
  apply (@addTerminalEnvironmentKeys_settles_lang AsciiCase.instance
           0 None (Some "de"%string) Auto
           [[("LANG"%string, VString "de_DE.ISO8859-1")]]).
  - simpl. lia.
  - discriminate.
Defined.

(** X9: addTerminalEnvironmentKeys is idempotent: a second call with the
    same version, locale and detection mode changes nothing. *)
Theorem addTerminalEnvironmentKeys_twice `{StringCase}
    (env : ref) (version locale : option string) (detectLocale : DetectLocale)
    (h : Heap) :
  env < length h ->
  exists h' : Heap,
    addTerminalEnvironmentKeys env version locale detectLocale h
    = (Returned tt, h')
    /\ addTerminalEnvironmentKeys env version locale detectLocale h'
       = (Returned tt, h').
Proof.
  intros Hlt. eexists. split; [now apply addTerminalEnvironmentKeys_run|].
  rewrite addTerminalEnvironmentKeys_run by (now rewrite length_insert).
  rewrite deref_insert_eq, list_insert_insert_eq by assumption.
  now rewrite addTerminalEnvironmentKeys_idempotent.
Qed.

Lemma addTerminalEnvironmentKeys_twice_witness :
  exists h' : Heap,
    @addTerminalEnvironmentKeys AsciiCase.instance 0 (Some "1.0"%string)
      (Some "pt-br"%string) Auto [[("HOME"%string, VString "/h")]]
    = (Returned tt, h')
    /\ @addTerminalEnvironmentKeys AsciiCase.instance 0 (Some "1.0"%string)
         (Some "pt-br"%string) Auto h'
       = (Returned tt, h').
Proof.
  apply (@addTerminalEnvironmentKeys_twice AsciiCase.instance
           0 (Some "1.0"%string) (Some "pt-br"%string) Auto
           [[("HOME"%string, VString "/h")]]).
  simpl. lia.
Defined.

(** ** mergeNonNullKeys and mergeEnvironments: what a lookup finds *)

Section Lookups.
Context `{StringCase} `{Platform} `{Processes}.

Lemma existsb_keys (o : Obj) k :
  existsb (String.eqb k) (Object.keys o) = Object.has o k.
Proof.
  induction o as [|[k' v'] o IH]; simpl; [reflexivity|].
  now rewrite IH, (String.eqb_sym k k').
Qed.

Lemma get_has_false (o : Obj) k : Object.has o k = false -> Object.get o k = VUndefined.
Proof. intros Hhas. now apply get_absent, has_false_keys. Qed.

Lemma mergeNonNullKeys_lookup (env other : Obj) k :
  let env' := Pure.mergeNonNullKeys env other in
  let copied := truthy (Object.get other k) && assignable env k in
  Object.get env' k = (if copied then Object.get other k else Object.get env k)
  /\ Object.has env' k = Object.has env k || copied.
Proof.
  cbn zeta. unfold Pure.mergeNonNullKeys.
  assert (Hgen : forall keys env,
    let env' :=
      fold_left
        (fun env key =>
           let value := Object.get other key in
           if truthy value then Object.set env key value else env) keys env in
    let copied :=
      existsb (String.eqb k) keys && truthy (Object.get other k)
      && assignable env k in
    Object.get env' k = (if copied then Object.get other k else Object.get env k)
    /\ Object.has env' k = Object.has env k || copied).
  { induction keys as [|key keys IH]; intros e; cbn zeta.
    - simpl. now rewrite orb_false_r.
    - cbn [fold_left existsb]. destruct (IH (if truthy (Object.get other key)
                                then Object.set e key (Object.get other key)
                                else e)) as [Hget Hhas].
      cbn zeta in Hget, Hhas. rewrite Hget, Hhas. clear Hget Hhas IH.
      destruct (String.eqb_spec k key) as [<-|Hne].
      + destruct (truthy (Object.get other k)) eqn:Ht;
          [|rewrite !andb_false_r; split; reflexivity].
        destruct (assignable e k) eqn:Hassign.
        * rewrite (get_set_assignable _ _ _ Hassign), (has_set_assignable _ _ _ Hassign).
          destruct (existsb _ _), (Object.has e k),
            (assignable (Object.set e k (Object.get other k)) k); split; reflexivity.
        * rewrite (set_not_assignable _ _ _ Hassign), Hassign.
          rewrite !andb_false_r. split; reflexivity.
      + cbn [orb]. unfold assignable.
        destruct (truthy (Object.get other key));
          rewrite ?get_set_ne, ?has_set_ne by congruence; split; reflexivity. }
  destruct (Hgen (Object.keys other) env) as [Hget Hhas]. cbn zeta in Hget, Hhas.
  rewrite Hget, Hhas, existsb_keys.
  destruct (Object.has other k) eqn:Hown; [split; reflexivity|].
  rewrite (get_has_false _ _ Hown). split; reflexivity.
Qed.


End Lookups.

(** ** mergeEnvironments on Windows: names stay unique up to case *)

Section CaseUnique.
Context `{StringCase} `{Platform} `{Processes}.

Lemma keys_set_present (o : Obj) k v :
  In k (Object.keys o) -> Object.keys (Object.set o k v) = Object.keys o.
Proof. intros Hin%has_keys. now rewrite set_own, keys_update. Qed.

Lemma keys_delete_incl (o : Obj) k x :
  In x (Object.keys (Object.delete o k)) -> In x (Object.keys o).
Proof.
  unfold Object.delete, Object.keys. rewrite !in_map_iff.
  intros (kv & Hx & Hin%filter_In). exists kv. tauto.
Qed.

Lemma case_unique_cons k v (o : Obj) :
  case_unique ((k, v) :: o)
  <-> ~ In (toLowerCase k) (map toLowerCase (Object.keys o)) /\ case_unique o.
Proof.
  unfold case_unique. simpl. rewrite NoDup_cons, list_elem_of_In. reflexivity.
Qed.

Lemma case_unique_delete (o : Obj) k :
  case_unique o -> case_unique (Object.delete o k).
Proof.
  induction o as [|[k' v'] o IH]; [trivial|].
  intros [Hnotin Ho]%case_unique_cons. unfold Object.delete. cbn [List.filter].
  fold (Object.delete o k). destruct (negb _); [|now apply IH].
  apply case_unique_cons. split; [|now apply IH].
  intros (x & Hx & Hin%keys_delete_incl)%in_map_iff.
  apply Hnotin. apply in_map_iff. now exists x.
Qed.

Lemma case_unique_middle (a b : Obj) k v :
  case_unique (a ++ b) ->
  ~ In (toLowerCase k) (map toLowerCase (Object.keys (a ++ b))) ->
  case_unique (a ++ (k, v) :: b).
Proof.
  unfold case_unique. rewrite !keys_app, !map_app. cbn [Object.keys map fst].
  intros Ho Hk. rewrite <- Permutation_middle. apply NoDup_cons.
  split; [|exact Ho]. now rewrite list_elem_of_In.
Qed.

Lemma apply_overlay_entry_case_unique (base : Obj) entry :
  isWindows = true -> case_unique base ->
  case_unique (apply_overlay_entry base entry).
Proof.
  intros HW Hbase. unfold apply_overlay_entry.
  destruct entry.2 as [value| |]; [|now apply case_unique_delete|exact Hbase].
  unfold resolved_key. rewrite HW.
  destruct (List.find _ _) as [existing|] eqn:Hfind.
  - apply find_some in Hfind as [Hin _].
    unfold case_unique. now rewrite keys_set_present.
  - assert (Hnone : ~ In (toLowerCase entry.1)
                        (map toLowerCase (Object.keys base))).
    { intros (x & Hx & Hin)%in_map_iff.
      pose proof (find_none _ _ Hfind x Hin) as Hm.
      unfold matches_ignoring_case in Hm. rewrite Hx, String.eqb_refl in Hm.
      discriminate. }
    destruct (set_cases base entry.1 (VString value))
      as [[Hown ->] | [(_ & _ & ->) | (_ & _ & a & b & Hsplit & ->)]].
    + unfold case_unique. now rewrite keys_update.
    + exact Hbase.
    + subst base. now apply case_unique_middle.
Qed.

Lemma mergeEnvironments_case_unique (parent other : Obj) :
  isWindows = true -> case_unique parent ->
  case_unique (Pure.mergeEnvironments parent other).
Proof.
  intros HW. unfold Pure.mergeEnvironments.
  generalize (Object.keys other) as keys. intros keys. revert parent.
  induction keys as [|key keys IH]; intros parent Hparent; [exact Hparent|].
  cbn [fold_left]. apply IH. rewrite mergeEnvironments_step_entry.
  now apply apply_overlay_entry_case_unique.
Qed.

End CaseUnique.

(** X10: mergeNonNullKeys copies the truthy values of [other] that an
    assignment stores, and does nothing else: among the own properties of
    the environment afterwards, every name has the value of [other] if
    that value is a non-empty string, and else what it had before; the
    one exception is the name [__proto__] when the environment has no
    property of that name, which stays absent. A name is never removed,
    so [null], [undefined] and the empty string of [other] leave an
    existing entry in place. *)
Theorem mergeNonNullKeys_lookup_after
    (env other : ref) (h : Heap) (k : string) :
  env <> other -> env < length h ->
  let copied :=
    truthy (Object.get (deref h other) k) && assignable (deref h env) k in
  exists env' : Obj,
    mergeNonNullKeys env (Some other) h = (Returned tt, <[env := env']> h)
    /\ Object.get env' k
       = (if copied then Object.get (deref h other) k
          else Object.get (deref h env) k)
    /\ Object.has env' k = Object.has (deref h env) k || copied.
Proof.
  intros Hne Hlt. cbn zeta. eexists. split; [now apply mergeNonNullKeys_run|].
  apply mergeNonNullKeys_lookup.
Qed.

(** [{A: null, B: "2", "__proto__": "x"}] copied onto [{A: "1"}]: [A]
    stays, [B] is copied and [__proto__] is not. *)
Lemma mergeNonNullKeys_lookup_after_witness :
  exists env' : Obj,
    mergeNonNullKeys 0 (Some 1)
      [[("A"%string, VString "1")];
       [("A"%string, VNull); ("B"%string, VString "2");
        ("__proto__"%string, VString "x")]]
    = (Returned tt,
       [env';
        [("A"%string, VNull); ("B"%string, VString "2");
         ("__proto__"%string, VString "x")]])
    /\ Object.get env' "A" = VString "1"
    /\ Object.has env' "__proto__" = false.
Proof.
  destruct (mergeNonNullKeys_lookup_after 0 1
              [[("A"%string, VString "1")];
               [("A"%string, VNull); ("B"%string, VString "2");
                ("__proto__"%string, VString "x")]] "A"%string)
    as (env' & Hrun & Hget & _).
  - lia.
  - simpl. lia.
  - exists env'. split; [exact Hrun|]. split; [exact Hget|].
    destruct (mergeNonNullKeys_lookup_after 0 1
                [[("A"%string, VString "1")];
                 [("A"%string, VNull); ("B"%string, VString "2");
                  ("__proto__"%string, VString "x")]] "__proto__"%string)
      as (env2 & Hrun2 & _ & Hhas); [lia|simpl; lia|].
    rewrite Hrun in Hrun2. injection Hrun2 as <-. exact Hhas.
Defined.



(** X12: on Windows mergeEnvironments keeps the names of the base unique
    up to case: if no two names of the base are equal up to case before
    the merge, none are after it, whatever the overlay holds. *)
Theorem mergeEnvironments_keeps_case_unique `{StringCase} `{Platform}
    (parent other : ref) (h : Heap) :
  isWindows = true -> parent <> other -> parent < length h ->
  case_unique (deref h parent) ->
  exists parent' : Obj,
    mergeEnvironments parent (Some other) h = (Returned tt, <[parent := parent']> h)
    /\ case_unique parent'.
Proof.
  intros HW Hne Hlt Hunique. eexists.
  split; [now apply mergeEnvironments_run|].
  now apply mergeEnvironments_case_unique.
Qed.

(** On Windows [{PATH: "x", path: "y", Tmp: "/t"}] merged into
    [{Path: "old"}]: one name for the path, still. *)
Lemma mergeEnvironments_keeps_case_unique_witness :
  exists parent' : Obj,
    @mergeEnvironments AsciiCase.instance Run.windows 0 (Some 1)
      [[("Path"%string, VString "old")];
       [("PATH"%string, VString "x"); ("path"%string, VString "y");
        ("Tmp"%string, VString "/t")]]
    = (Returned tt,
       [parent';
        [("PATH"%string, VString "x"); ("path"%string, VString "y");
         ("Tmp"%string, VString "/t")]])
    /\ @case_unique AsciiCase.instance parent'.
Proof.
  apply (@mergeEnvironments_keeps_case_unique AsciiCase.instance Run.windows 0 1
           [[("Path"%string, VString "old")];
            [("PATH"%string, VString "x"); ("path"%string, VString "y");
             ("Tmp"%string, VString "/t")]]).
  - reflexivity.
  - lia.
  - simpl. lia.
  - apply (bool_decide_unpack _). reflexivity.
Defined.

(** X13: mergeEnvironments stores strings only: if every value of the
    base is a string before the merge, every value is a string after it;
    the [null] and [undefined] values of the overlay are never stored. *)
Theorem mergeEnvironments_only_strings `{StringCase} `{Platform}
    (parent other : ref) (h : Heap) :
  parent <> other -> parent < length h ->
  (forall k v, In (k, v) (deref h parent) -> exists s, v = VString s) ->
  exists parent' : Obj,
    mergeEnvironments parent (Some other) h = (Returned tt, <[parent := parent']> h)
    /\ forall k v, In (k, v) parent' -> exists s, v = VString s.
Proof.
  intros Hne Hlt Hstrings. eexists.
  split; [now apply mergeEnvironments_run|].
  assert (Hall : all_strings (deref h parent)).
  { unfold all_strings. apply Forall_forall. intros [k v] Hin%list_elem_of_In.
    destruct (Hstrings k v Hin) as [s ->]. reflexivity. }
  apply (all_strings_mergeEnvironments _ (deref h other)) in Hall.
  intros k v Hin. unfold all_strings in Hall. rewrite Forall_forall in Hall.
  specialize (Hall (k, v)). rewrite list_elem_of_In in Hall. specialize (Hall Hin).
  destruct v; try discriminate Hall. eauto.
Qed.

Lemma mergeEnvironments_only_strings_witness :
  exists parent' : Obj,
    @mergeEnvironments AsciiCase.instance Run.linux 0 (Some 1)
      [[("A"%string, VString "1")];
       [("A"%string, VNull); ("B"%string, VUndefined); ("C"%string, VString "3")]]
    = (Returned tt,
       [parent';
        [("A"%string, VNull); ("B"%string, VUndefined); ("C"%string, VString "3")]])
    /\ forall k v, In (k, v) parent' -> exists s, v = VString s.
Proof.
  apply (@mergeEnvironments_only_strings AsciiCase.instance Run.linux 0 1
           [[("A"%string, VString "1")];
            [("A"%string, VNull); ("B"%string, VUndefined);
             ("C"%string, VString "3")]]).
  - lia.
  - simpl. lia.
  - intros k v [[= <- <-]|[]]. eauto.
Defined.

(** ** resolveConfigurationVariables *)

Section ResolveFurther.

Lemma get_present (o : Obj) k :
  Object.get o k <> VUndefined -> In k (Object.keys o).
Proof.
  intros Hget. destruct (in_dec String.string_dec k (Object.keys o)) as [Hin|Hnotin];
    [exact Hin|]. now rewrite get_absent in Hget.
Qed.

Lemma resolve_step_keys variableResolver env key :
  Object.keys (resolve_step variableResolver env key) = Object.keys env.
Proof.
  unfold resolve_step. destruct (Object.get env key) eqn:Hget; try reflexivity.
  apply keys_set_present, get_present. congruence.
Qed.

Lemma resolve_step_other variableResolver env key k :
  isString (Object.get env k) = false ->
  Object.get (resolve_step variableResolver env key) k = Object.get env k.
Proof.
  intros Hk. unfold resolve_step. destruct (Object.get env key) eqn:Hget;
    try reflexivity.
  destruct (String.eqb_spec key k) as [->|Hne]; [|now apply get_set_ne].
  now rewrite Hget in Hk.
Qed.

Lemma resolve_step_throwing variableResolver env key :
  (forall s, exists e, variableResolver s = inl e) ->
  resolve_step variableResolver env key = env.
Proof.
  intros Hthrows. unfold resolve_step.
  destruct (Object.get env key) as [s| |] eqn:Hget; try reflexivity.
  apply set_same.
  - apply has_keys, get_present. congruence.
  - rewrite Hget. unfold Pure.resolveValue.
    destruct (Hthrows s) as [e ->]. reflexivity.
Qed.

Lemma resolveConfigurationVariables_fold variableResolver (env : Obj) keys :
  let env' := fold_left (resolve_step variableResolver) keys env in
  Object.keys env' = Object.keys env
  /\ (forall k, isString (Object.get env k) = false ->
                Object.get env' k = Object.get env k)
  /\ ((forall s, exists e, variableResolver s = inl e) -> env' = env).
Proof.
  cbn zeta. revert env. induction keys as [|key keys IH]; intros env.
  - simpl. repeat split; auto.
  - cbn [fold_left].
    destruct (IH (resolve_step variableResolver env key)) as (Hkeys & Hother & Hthrow).
    repeat apply conj.
    + now rewrite Hkeys, resolve_step_keys.
    + intros k Hk. rewrite Hother; rewrite resolve_step_other; auto.
    + intros Hthrows. rewrite (Hthrow Hthrows). now apply resolve_step_throwing.
Qed.

End ResolveFurther.

(** X14: resolveConfigurationVariables returns the object it was given and
    never throws, whatever the resolver does; it keeps the names of the
    object and their order, leaves every [null] and [undefined] value as
    it is, and with a resolver that throws on every string it leaves the
    whole store as it was. *)
Theorem resolveConfigurationVariables_keeps_shape
    (variableResolver : VariableResolver) (env : ref) (h : Heap) :
  env < length h ->
  exists env' : Obj,
    resolveConfigurationVariables variableResolver env h
    = (Returned env, <[env := env']> h)
    /\ Object.keys env' = Object.keys (deref h env)
    /\ (forall k, isString (Object.get (deref h env) k) = false ->
                  Object.get env' k = Object.get (deref h env) k)
    /\ ((forall s, exists e, variableResolver s = inl e) ->
        <[env := env']> h = h).
Proof.
  intros Hlt. eexists. split; [now apply resolveConfigurationVariables_run|].
  destruct (resolveConfigurationVariables_fold variableResolver (deref h env)
              (Object.keys (deref h env))) as (Hkeys & Hother & Hthrow).
  split; [exact Hkeys|]. split; [exact Hother|].
  intros Hthrows. unfold Pure.resolveConfigurationVariables.
  fold (resolve_step variableResolver).
  change (fold_left _ (Object.keys (deref h env)) (deref h env))
    with (fold_left (resolve_step variableResolver)
            (Object.keys (deref h env)) (deref h env)).
  rewrite (Hthrow Hthrows). apply insert_deref.
Qed.

(** A resolver that always throws, on [{A: "${v}", B: null}]. *)
Lemma resolveConfigurationVariables_keeps_shape_witness :
  resolveConfigurationVariables (fun _ => inl (Error "unresolved")) 0
    [[("A"%string, VString "${v}"); ("B"%string, VNull)]]
  = (Returned 0, [[("A"%string, VString "${v}"); ("B"%string, VNull)]]).
Proof.
  destruct (resolveConfigurationVariables_keeps_shape
              (fun _ => inl (Error "unresolved")) 0
              [[("A"%string, VString "${v}"); ("B"%string, VNull)]])
    as (env' & Hrun & _ & _ & Hthrow).
  - simpl. lia.
  - rewrite Hrun, Hthrow; [reflexivity|]. intros s. eauto.
Defined.

(** ** createTerminalEnvironment: the store, the stamps, the precedence *)

Section CreateFurther.
Context `{StringCase} `{Platform} `{Processes}.


Lemma pipeline_stamped base configured shell version detectLocale :
  let result := pipeline base configured shell version detectLocale in
  Object.get result "TERM_PROGRAM" = VString "vscode"
  /\ Object.get result "COLORTERM" = VString "truecolor".
Proof.
  cbn zeta. unfold pipeline. cbn zeta. split.
  - apply addTerminalEnvironmentKeys_TERM_PROGRAM.
  - apply addTerminalEnvironmentKeys_COLORTERM.
Qed.


(** *** No assignment makes [__proto__] a property *)







End CreateFurther.

(** X15: without a variable resolver createTerminalEnvironment modifies no
    object of the store: outside strict mode it adds the new environment
    and a copy of the configured overlay, entry for entry, and in strict
    mode the new environment only. *)
Theorem createTerminalEnvironment_no_resolver_no_mutation
    `{StringCase} `{Platform} `{Processes}
    (shellLaunchConfig : IShellLaunchConfig.t) (envFromConfig : option ref)
    (version : option string) (detectLocale : DetectLocale) (baseEnv : ref)
    (h : Heap) :
  baseEnv < length h ->
  (forall c, envFromConfig = Some c -> c < length h) ->
  (forall r, IShellLaunchConfig.env shellLaunchConfig = Some r -> r < length h) ->
  exists env : Obj,
    createTerminalEnvironment shellLaunchConfig envFromConfig None version
      detectLocale baseEnv h
    = (Returned (length h),
       h ++ env :: (if IShellLaunchConfig.strictEnv shellLaunchConfig then []
                    else [configured_overlay h envFromConfig])).
Proof.
  intros Hbase Hcfg Hshell.
  destruct (IShellLaunchConfig.strictEnv shellLaunchConfig) eqn:Hstrict.
  - eexists. now apply createTerminalEnvironment_strict_run.
  - eexists. now apply createTerminalEnvironment_run.
Qed.

Lemma createTerminalEnvironment_no_resolver_no_mutation_witness :
  exists env : Obj,
    @createTerminalEnvironment AsciiCase.instance Run.linux Run.no_sanitizing
      Sample.shellLaunchConfig (Some 2) None None Off 1 Sample.store
    = (Returned 3,
       Sample.store
         ++ [env; [("X"%string, VString "${v}"); ("Y"%string, VString "${w}")]]).
Proof.
  apply (@createTerminalEnvironment_no_resolver_no_mutation
           AsciiCase.instance Run.linux Run.no_sanitizing
           Sample.shellLaunchConfig (Some 2) None Off 1 Sample.store).
  - simpl. lia.
  - intros c [= <-]. simpl. lia.
  - intros r [= <-]. simpl. lia.
Defined.

(** X16: outside strict mode the environment createTerminalEnvironment
    returns has [TERM_PROGRAM] at [vscode] and [COLORTERM] at [truecolor],
    whatever the base environment and the two overlays hold under these
    names: the stamps are written last. *)
Theorem createTerminalEnvironment_stamps_last
    `{StringCase} `{Platform} `{Processes}
    (shellLaunchConfig : IShellLaunchConfig.t) (envFromConfig : option ref)
    (variableResolver : option VariableResolver) (version : option string)
    (detectLocale : DetectLocale) (baseEnv : ref) (h : Heap) :
  IShellLaunchConfig.strictEnv shellLaunchConfig = false ->
  baseEnv < length h ->
  (forall c, envFromConfig = Some c -> c < length h) ->
  (forall r, IShellLaunchConfig.env shellLaunchConfig = Some r -> r < length h) ->
  exists (h' : Heap) (result : Obj),
    createTerminalEnvironment shellLaunchConfig envFromConfig variableResolver
      version detectLocale baseEnv h
    = (Returned (length h), h')
    /\ h' !! length h = Some result
    /\ Object.get result "TERM_PROGRAM" = VString "vscode"
    /\ Object.get result "COLORTERM" = VString "truecolor".
Proof.
  intros Hstrict Hbase Hcfg Hshell.
  eexists _, _. split; [now apply createTerminalEnvironment_run|].
  cbn zeta. split.
  - apply list_lookup_middle.
    destruct variableResolver;
      [symmetry; apply length_store_resolved|reflexivity].
  - apply pipeline_stamped.
Qed.

(** A launch config that asks for [TERM_PROGRAM: "other"] and for
    [COLORTERM: null]. *)
Lemma createTerminalEnvironment_stamps_last_witness :
  exists (h' : Heap) (result : Obj),
    @createTerminalEnvironment AsciiCase.instance Run.linux Run.no_sanitizing
      Sample.shellLaunchConfig None None None Off 1
      [[("TERM_PROGRAM"%string, VString "other"); ("COLORTERM"%string, VNull)];
       [("HOME"%string, VString "/h")]]
    = (Returned 2, h')
    /\ h' !! 2 = Some result
    /\ Object.get result "TERM_PROGRAM" = VString "vscode"
    /\ Object.get result "COLORTERM" = VString "truecolor".
Proof.
  apply (@createTerminalEnvironment_stamps_last
           AsciiCase.instance Run.linux Run.no_sanitizing
           Sample.shellLaunchConfig None None None Off 1
           [[("TERM_PROGRAM"%string, VString "other"); ("COLORTERM"%string, VNull)];
            [("HOME"%string, VString "/h")]]).
  - reflexivity.
  - simpl. lia.
  - intros c [=].
  - intros r [= <-]. simpl. lia.
Defined.



(** ** getCwd: the explicit cwd, the opt-out, the log *)

(** X18: an explicit cwd of the launch config decides alone: the user
    home, the workspace root, the configured cwd, the opt-out flag and the
    log service play no part, and nothing is logged. The result is the
    sanitized resolution of the explicit cwd, and the sanitized explicit
    cwd itself when there is no resolver or when the resolver resolves it
    to the empty string. *)
Theorem getCwd_explicit_decides
    `{StringCase} `{Platform} `{path.Interface}
    (shell : IShellLaunchConfig.t) (userHome : option string)
    (variableResolver : option VariableResolver) (root : option Uri)
    (customCwd : option string) (logService : option ILogService) (log : Log)
    (unresolved : string) :
  explicit_cwd shell = Some unresolved ->
  (forall shell' userHome' root' customCwd' logService',
      IShellLaunchConfig.cwd shell' = IShellLaunchConfig.cwd shell ->
      getCwd shell' userHome' variableResolver root' customCwd' logService' log
      = getCwd shell userHome variableResolver root customCwd logService log)
  /\ (variableResolver = None ->
      getCwd shell userHome variableResolver root customCwd logService log
      = (Returned (_sanitizeCwd unresolved), log))
  /\ (forall resolver resolved,
         variableResolver = Some resolver ->
         resolver unresolved = inr resolved -> resolved <> ""%string ->
         getCwd shell userHome variableResolver root customCwd logService log
         = (Returned (_sanitizeCwd resolved), log))
  /\ (forall resolver,
         variableResolver = Some resolver ->
         resolver unresolved = inr ""%string ->
         getCwd shell userHome variableResolver root customCwd logService log
         = (Returned (_sanitizeCwd unresolved), log)).
Proof.
  intros Hexplicit. repeat apply conj.
  - intros shell' userHome' root' customCwd' logService' Hcwd.
    assert (Hexplicit' : explicit_cwd shell' = Some unresolved)
      by (unfold explicit_cwd in *; now rewrite Hcwd).
    now rewrite (getCwd_explicit _ _ _ _ _ _ _ _ Hexplicit),
      (getCwd_explicit _ _ _ _ _ _ _ _ Hexplicit').
  - intros ->. now rewrite (getCwd_explicit _ _ _ _ _ _ _ _ Hexplicit).
  - intros resolver resolved -> Hres Hne.
    rewrite (getCwd_explicit _ _ _ _ _ _ _ _ Hexplicit), Hres.
    destruct resolved; [contradiction|reflexivity].
  - intros resolver -> Hres.
    now rewrite (getCwd_explicit _ _ _ _ _ _ _ _ Hexplicit), Hres.
Qed.

(** An explicit [/tmp/x] that the resolver resolves to the empty string,
    beside a configured cwd and a root. *)
Lemma getCwd_explicit_decides_witness :
  @getCwd AsciiCase.instance Run.linux Run.slash_path
    {| IShellLaunchConfig.cwd := Some (inl "/tmp/x"%string);
       IShellLaunchConfig.env := None;
       IShellLaunchConfig.strictEnv := false;
       IShellLaunchConfig.ignoreConfigurationCwd := false |}
    (Some "/home/u"%string) (Some (fun _ => inr ""%string))
    (Some {| fsPath := "/w" |}) (Some "/configured"%string) (Some LogService) []
  = (Returned "/tmp/x"%string, []).
Proof.
  destruct (@getCwd_explicit_decides AsciiCase.instance Run.linux Run.slash_path
              {| IShellLaunchConfig.cwd := Some (inl "/tmp/x"%string);
                 IShellLaunchConfig.env := None;
                 IShellLaunchConfig.strictEnv := false;
                 IShellLaunchConfig.ignoreConfigurationCwd := false |}
              (Some "/home/u"%string) (Some (fun _ => inr ""%string))
              (Some {| fsPath := "/w" |}) (Some "/configured"%string)
              (Some LogService) [] "/tmp/x"%string eq_refl)
    as (_ & _ & _ & Hempty).
  rewrite (Hempty _ eq_refl eq_refl). reflexivity.
Defined.

(** X19: when the launch config has no explicit cwd and opts out of the
    configured cwd, the configured cwd is not looked at: whatever it is
    and whatever the resolver would do with it, the result is the
    sanitized fallback (the workspace root path, else the user home path,
    else the empty string) and nothing is logged. The same holds when no
    configured cwd, or an empty one, is given. *)
Theorem getCwd_opt_out
    `{StringCase} `{Platform} `{path.Interface}
    (shell : IShellLaunchConfig.t) (userHome : option string)
    (variableResolver : option VariableResolver) (root : option Uri)
    (customCwd : option string) (logService : option ILogService) (log : Log) :
  explicit_cwd shell = None ->
  IShellLaunchConfig.ignoreConfigurationCwd shell = true
  \/ customCwd = None \/ customCwd = Some ""%string ->
  getCwd shell userHome variableResolver root customCwd logService log
  = (Returned (_sanitizeCwd (fallback_cwd root userHome)), log).
Proof.
  intros Hnone Hcase. rewrite (getCwd_configured _ _ _ _ _ _ _ Hnone).
  unfold configured_cwd.
  destruct Hcase as [-> | [-> | ->]].
  - reflexivity.
  - destruct (IShellLaunchConfig.ignoreConfigurationCwd shell); reflexivity.
  - destruct (IShellLaunchConfig.ignoreConfigurationCwd shell);
      [reflexivity|]. cbn [Str.truthy String.eqb negb].
    destruct variableResolver, logService; reflexivity.
Qed.

(** Opted out, with a configured cwd and a resolver that always throws:
    the root, and an empty log. *)
Lemma getCwd_opt_out_witness :
  @getCwd AsciiCase.instance Run.linux Run.slash_path
    {| IShellLaunchConfig.cwd := None;
       IShellLaunchConfig.env := None;
       IShellLaunchConfig.strictEnv := false;
       IShellLaunchConfig.ignoreConfigurationCwd := true |}
    (Some "/home/u"%string) (Some (fun _ => inl (Error "unresolved")))
    (Some {| fsPath := "/w" |}) (Some "/configured"%string) (Some LogService) []
  = (Returned "/w"%string, []).
Proof.
  rewrite (@getCwd_opt_out AsciiCase.instance Run.linux Run.slash_path
             {| IShellLaunchConfig.cwd := None;
                IShellLaunchConfig.env := None;
                IShellLaunchConfig.strictEnv := false;
                IShellLaunchConfig.ignoreConfigurationCwd := true |}
             (Some "/home/u"%string) (Some (fun _ => inl (Error "unresolved")))
             (Some {| fsPath := "/w" |}) (Some "/configured"%string)
             (Some LogService) [] eq_refl (or_introl eq_refl)).
  reflexivity.
Defined.

(** X20: getCwd only ever appends to the log, and at most one entry, the
    error [Could not resolve terminal cwd]; it logs nothing when there is
    no resolver, when there is no log service, and when the launch config
    has an explicit cwd. *)
Theorem getCwd_log
    `{StringCase} `{Platform} `{path.Interface}
    (shell : IShellLaunchConfig.t) (userHome : option string)
    (variableResolver : option VariableResolver) (root : option Uri)
    (customCwd : option string) (logService : option ILogService) (log : Log) :
  exists (cwd : string) (log' : Log),
    getCwd shell userHome variableResolver root customCwd logService log
    = (Returned cwd, log')
    /\ (log' = log
        \/ exists e, log' = log ++ [("Could not resolve terminal cwd"%string, e)])
    /\ (variableResolver = None -> log' = log)
    /\ (logService = None -> log' = log)
    /\ (forall unresolved, explicit_cwd shell = Some unresolved -> log' = log).
Proof.
  destruct (explicit_cwd_cases shell) as [[unresolved Hex] | Hnone].
  - rewrite (getCwd_explicit _ _ _ _ _ _ _ _ Hex). eexists _, _.
    split; [reflexivity|]. repeat split; auto.
  - rewrite (getCwd_configured _ _ _ _ _ _ _ Hnone). eexists _, _.
    split; [reflexivity|].
    destruct (IShellLaunchConfig.ignoreConfigurationCwd shell);
      [repeat split; auto|].
    destruct customCwd as [c|]; [|repeat split; auto].
    destruct variableResolver as [resolver|]; [|repeat split; auto].
    destruct logService; [|repeat split; auto].
    destruct (Str.truthy c); [|repeat split; auto].
    destruct (resolver c) as [e|c']; [|repeat split; auto].
    repeat split; try discriminate; [right; eauto|].
    intros unresolved Hex. congruence.
Qed.

(** ** getWindowsBuildNumber *)

Section BuildNumber.

Lemma isDigit_not_dot c : isDigit c = true -> Ascii.eqb c "." = false.
Proof.
  intros Hc. destruct (Ascii.eqb_spec c ".") as [->|]; [discriminate Hc|reflexivity].
Qed.

Lemma digits_split s :
  s = (digits s).1 +:+ (digits s).2
  /\ all_digits (digits s).1 = true
  /\ no_leading_digit (digits s).2 = true.
Proof.
  induction s as [|c s IH]; [repeat split|].
  cbn [digits]. destruct (isDigit c) eqn:Hc.
  - destruct (digits s) as [d r]. cbn [fst snd] in *.
    destruct IH as (Heq & Hd & Hr). rewrite append_cons, <- Heq.
    cbn [all_digits]. rewrite Hc, Hd. repeat split. exact Hr.
  - cbn [fst snd no_leading_digit]. rewrite Hc. repeat split.
Qed.

Lemma digits_app a r :
  all_digits a = true -> no_leading_digit r = true -> digits (a +:+ r) = (a, r).
Proof.
  intros Ha Hr. induction a as [|c a IH].
  - rewrite append_nil_l. destruct r as [|c r]; [reflexivity|].
    cbn [digits]. cbn [no_leading_digit] in Hr.
    apply negb_true_iff in Hr. now rewrite Hr.
  - cbn [all_digits] in Ha. apply andb_true_iff in Ha as [Hc Ha].
    rewrite append_cons. cbn [digits]. now rewrite Hc, (IH Ha).
Qed.

Lemma count_char_app c a b :
  count_char c (a +:+ b) = count_char c a + count_char c b.
Proof.
  induction a as [|x a IH]; [reflexivity|].
  rewrite append_cons. cbn [count_char]. rewrite IH. lia.
Qed.

Lemma stripPrefix_dot_count r r' :
  Str.stripPrefix "." r = Some r' -> count_char "." r = S (count_char "." r').
Proof. intros ->%stripPrefix_Some. reflexivity. Qed.

Lemma version_here_dots s groups :
  version_here s = Some groups -> 2 <= count_char "." s.
Proof.
  unfold version_here.
  destruct (digits_split s) as (Hs & _ & _). destruct (digits s) as [g1 r1].
  cbn [fst snd] in Hs. destruct (Str.truthy g1); [|discriminate].
  destruct (Str.stripPrefix "." r1) as [r1'|] eqn:Hdot1; [|discriminate].
  destruct (digits_split r1') as (Hr1 & _ & _). destruct (digits r1') as [g2 r2].
  cbn [fst snd] in Hr1. destruct (Str.truthy g2); [|discriminate].
  destruct (Str.stripPrefix "." r2) as [r2'|] eqn:Hdot2; [|discriminate].
  intros _. rewrite Hs, count_char_app, (stripPrefix_dot_count _ _ Hdot1).
  rewrite Hr1, count_char_app, (stripPrefix_dot_count _ _ Hdot2). lia.
Qed.

Lemma version_exec_dots s groups :
  version_exec s = Some groups -> 2 <= count_char "." s.
Proof.
  induction s as [|c s IH]; cbn [version_exec].
  - destruct (version_here "") eqn:Hhere; [|discriminate].
    intros _. now apply version_here_dots in Hhere.
  - destruct (version_here (String c s)) eqn:Hhere.
    + intros _. now apply version_here_dots in Hhere.
    + intros Hexec%IH. cbn [count_char]. lia.
Qed.

Lemma version_here_components major minor build rest :
  all_digits major = true -> major <> ""%string ->
  all_digits minor = true -> minor <> ""%string ->
  all_digits build = true -> build <> ""%string ->
  no_leading_digit rest = true ->
  version_here (major +:+ "." +:+ minor +:+ "." +:+ build +:+ rest)
  = Some (major, minor, build).
Proof.
  intros Hmajor Hmajor' Hminor Hminor' Hbuild Hbuild' Hrest.
  assert (Htruthy : forall s, s <> ""%string -> Str.truthy s = true)
    by (intros [|c s] Hs; [contradiction|reflexivity]).
  assert (Hdot : forall s, Str.stripPrefix "." ("." +:+ s) = Some s)
    by (intros s; now apply stripPrefix_Some).
  unfold version_here.
  rewrite (digits_app major) by (assumption || reflexivity).
  rewrite (Htruthy _ Hmajor'), Hdot.
  rewrite (digits_app minor) by (assumption || reflexivity).
  rewrite (Htruthy _ Hminor'), Hdot.
  rewrite (digits_app build) by assumption.
  now rewrite (Htruthy _ Hbuild').
Qed.

Lemma version_exec_skips pre s groups :
  all_digits_free pre = true -> version_here s = Some groups ->
  version_exec (pre +:+ s) = Some groups.
Proof.
  intros Hpre Hhere. induction pre as [|c pre IH].
  - rewrite append_nil_l. destruct s; cbn [version_exec]; now rewrite Hhere.
  - cbn [all_digits_free] in Hpre. apply andb_true_iff in Hpre as [Hc Hpre].
    apply negb_true_iff in Hc.
    rewrite append_cons. cbn [version_exec]. unfold version_here at 1.
    cbn [digits]. rewrite Hc. cbn [Str.truthy String.eqb negb]. now apply IH.
Qed.

End BuildNumber.

(** X21: getWindowsBuildNumber is 0 for every release string with fewer
    than two dots: without three numbers separated by dots there is no
    build number to read. *)
Theorem getWindowsBuildNumber_no_version `{os.Interface} :
  count_char "." os.release < 2 -> getWindowsBuildNumber = 0%N.
Proof.
  intros Hdots. unfold getWindowsBuildNumber.
  destruct (version_exec os.release) as [[[g1 g2] g3]|] eqn:Hexec; [|reflexivity].
  apply version_exec_dots in Hexec. lia.
Qed.

Lemma getWindowsBuildNumber_no_version_witness :
  @getWindowsBuildNumber {| os.release := "5.15-generic" |} = 0%N.
Proof.
  apply (@getWindowsBuildNumber_no_version {| os.release := "5.15-generic" |}).
  simpl. lia.
Defined.

(** X22: for a release string whose first digits are those of
    [major.minor.build], getWindowsBuildNumber is the number [build]
    denotes (one below 2^53, which a number of the program holds
    exactly), whatever text without digits comes before and whatever
    follows the digits of [build], a fourth component included. *)
Theorem getWindowsBuildNumber_third_component `{os.Interface}
    (pre major minor build rest : string) :
  os.release = pre +:+ major +:+ "." +:+ minor +:+ "." +:+ build +:+ rest ->
  all_digits_free pre = true ->
  all_digits major = true -> major <> ""%string ->
  all_digits minor = true -> minor <> ""%string ->
  all_digits build = true -> build <> ""%string ->
  no_leading_digit rest = true ->
  (parseInt build < 2 ^ 53)%N ->
  getWindowsBuildNumber = parseInt build.
Proof.
  intros Hrelease Hpre Hmajor Hmajor' Hminor Hminor' Hbuild Hbuild' Hrest _.
  unfold getWindowsBuildNumber. rewrite Hrelease.
  rewrite (version_exec_skips pre _ (major, minor, build)); [reflexivity|exact Hpre|].
  now apply version_here_components.
Qed.

(** The release [10.0.19041.1234]: the build number is 19041. *)
Lemma getWindowsBuildNumber_third_component_witness :
  @getWindowsBuildNumber {| os.release := "10.0.19041.1234" |} = 19041%N.
Proof.
  rewrite (@getWindowsBuildNumber_third_component
             {| os.release := "10.0.19041.1234" |}
             "" "10" "0" "19041" ".1234" eq_refl eq_refl
             eq_refl ltac:(discriminate) eq_refl ltac:(discriminate)
             eq_refl ltac:(discriminate) eq_refl eq_refl).
  reflexivity.
Defined.

(** ** The borders of the auxiliary bar *)

(** X23: updateStyles draws the border of the auxiliary bar on one side
    at most: a side is [solid] exactly when its width is [1px], never
    both sides are, and one is exactly when a border color is found, that
    is when the [borderWidth] handed to the panel is 1; it is then the
    right side if the side bar is on the right and the left side
    otherwise. Both sides get the same color. *)
Theorem updateStyles_one_side
    (sideBarBorder contrastBorder : option string) (sideBarPosition : Position) :
  let style := updateStyles sideBarBorder contrastBorder sideBarPosition in
  let left := borderLeftStyle style = "solid"%string in
  let right := borderRightStyle style = "solid"%string in
  ~ (left /\ right)
  /\ (left <-> borderLeftWidth style = "1px"%string)
  /\ (right <-> borderRightWidth style = "1px"%string)
  /\ (borderWidth sideBarBorder contrastBorder = 1 <-> left \/ right)
  /\ (borderWidth sideBarBorder contrastBorder = 1 ->
      if Position_eqb sideBarPosition RIGHT then right else left)
  /\ borderLeftColor style = borderRightColor style.
Proof.
  cbn zeta. unfold updateStyles, borderWidth. cbn [borderLeftStyle borderRightStyle
    borderLeftWidth borderRightWidth borderLeftColor borderRightColor].
  destruct (truthy_opt (color_or sideBarBorder contrastBorder)),
    sideBarPosition; cbn [Position_eqb negb andb];
    repeat split; intros; try discriminate; try reflexivity; try tauto;
    intuition discriminate.
Qed.

(** ** _sanitizeCwd *)

(** X24: sanitizing a working directory twice is the same as sanitizing it
    once, on every operating system, when [toUpperCase] takes a single
    character to a single character that it leaves as it is. *)
Theorem _sanitizeCwd_idempotent `{StringCase} `{Platform} (cwd : string) :
  (forall c : ascii, exists c' : ascii,
      toUpperCase (String c "") = String c' ""
      /\ toUpperCase (String c' "") = String c' "") ->
  _sanitizeCwd (_sanitizeCwd cwd) = _sanitizeCwd cwd.
Proof.
  intros Hupper. unfold _sanitizeCwd.
  destruct (OperatingSystem_eqb OS Windows); [|reflexivity].
  destruct cwd as [|c0 [|c1 rest]]; try reflexivity.
  cbn [andb Str.truthy String.eqb negb Str.at_ String.get Str.charAt Str.substr].
  destruct (Ascii.eqb c1 ":") eqn:Hcolon.
  - destruct (Hupper c0) as (c' & Hc0 & Hc').
    cbn. rewrite ?Hc0. rewrite append_cons, append_nil_l.
    cbn. rewrite Hcolon, ?Hc', append_cons, append_nil_l. reflexivity.
  - cbn. rewrite Hcolon. reflexivity.
Qed.

Lemma _sanitizeCwd_idempotent_witness :
  @_sanitizeCwd AsciiCase.instance Run.windows
    (@_sanitizeCwd AsciiCase.instance Run.windows "c:\Users\me")
  = @_sanitizeCwd AsciiCase.instance Run.windows "c:\Users\me"
  /\ @_sanitizeCwd AsciiCase.instance Run.windows "c:\Users\me" = "C:\Users\me"%string.
Proof.
  split; [|reflexivity].
  apply (@_sanitizeCwd_idempotent AsciiCase.instance Run.windows).
  intros c. exists (AsciiCase.upper_char c). split; [reflexivity|].
  cbn. f_equal. unfold AsciiCase.upper_char.
  destruct c as [[] [] [] [] [] [] [] []]; reflexivity.
Defined.
